(** * Zipfix: the raw byte-scan repair pass of [zipfix.py]

    A shallow embedding of [find_file_signatures],
    [extract_filename_from_header], [repair_zip], [extract_files] and
    [main], and the properties of the repair pass and of the command-line
    tool proved over it.

    Conventions.
    - A Python [bytes] object is a [list byte]; a Python [int] is a [Z]; a
      Python [str] is the list of its Unicode code points.
    - [data[a:b]], [data.find], [data.rfind] and [struct.unpack] are
      modelled with the behaviour CPython gives them, including the clipping
      of slice indices and the [-1] result of an unsuccessful search.
    - The file system is reduced to what the repair pass does with it: the
      buffer read from [file_path] is the argument [data], the same for
      [repair_zip] and for the call of [find_file_signatures] in it, and
      the archive at [output_path] is a component of the state.  Failures
      of [open] and of closing the archive are outside the model.
    - An exception is a value of [exn]; all of them derive from Python's
      [Exception], which is what [except Exception] and the bare [except]
      of [repair_zip] catch. *)

From Equations Require Import Equations.
From Stdlib Require Import ZArith List Lia Bool Sorted.
From Stdlib.Strings Require Import Byte Ascii String.
From Stdlib Require Import DecimalString DecimalNat.
Import ListNotations.
Local Open Scope Z_scope.

(** ** Bytes objects *)

Definition bytes := list byte.

Definition len (data : bytes) : Z := Z.of_nat (List.length data).

Definition byte_val (b : byte) : Z := Z.of_N (Byte.to_N b).

(** Slice indices are adjusted as CPython does: a negative index counts
    from the end, and the result is clipped to [0, len]. *)
Definition clip_index (n i : Z) : Z :=
  if i <? 0 then Z.max 0 (i + n) else Z.min i n.

(** [data[start:stop]] *)
Definition slice (data : bytes) (start stop : Z) : bytes :=
  let a := clip_index (len data) start in
  let b := clip_index (len data) stop in
  firstn (Z.to_nat (b - a)) (skipn (Z.to_nat a) data).

(** [data.startswith(sub)] *)
Fixpoint starts_with (sub data : bytes) : bool :=
  match sub, data with
  | [], _ => true
  | _ :: _, [] => false
  | s :: sub', d :: data' => Byte.eqb s d && starts_with sub' data'
  end.

(** The forward scan behind [find]: [data] is the part of the buffer that
    starts at index [i]. *)
Fixpoint find_from (sub data : bytes) (i : Z) : Z :=
  if starts_with sub data then i
  else match data with
       | [] => -1
       | _ :: rest => find_from sub rest (i + 1)
       end.

(** [data.find(sub, start)]: the lowest index [>= start] at which [sub]
    occurs, or [-1]. *)
Definition bytes_find (data sub : bytes) (start : Z) : Z :=
  let n := len data in
  let start' := if start <? 0 then Z.max 0 (start + n) else start in
  if n <? start' then -1
  else find_from sub (skipn (Z.to_nat start') data) start'.

(** The backward scan behind [rfind]. *)
Fixpoint rfind_from (sub data : bytes) (i : Z) : Z :=
  match data with
  | [] => if starts_with sub data then i else -1
  | _ :: rest =>
      let r := rfind_from sub rest (i + 1) in
      if r =? -1 then (if starts_with sub data then i else -1) else r
  end.

(** [data.rfind(sub)]: the highest index at which [sub] occurs, or [-1]. *)
Definition bytes_rfind (data sub : bytes) : Z := rfind_from sub data 0.

(** [sub] occurs in [data] at index [o]: [data[o:o+len(sub)] == sub]. *)
Definition occurs_at (sub data : bytes) (o : Z) : Prop :=
  0 <= o /\ slice data o (o + len sub) = sub.

(** A signature of at least four bytes whose first byte does not occur
    again in it: two occurrences of such a signature cannot start within
    four bytes of each other, so the [offset += 4] of the scanner skips
    nothing. *)
Definition self_avoiding (sig : bytes) : Prop :=
  match sig with
  | [] => False
  | first :: others => ~ In first others /\ (3 <= List.length others)%nat
  end.

(** ** [struct.unpack] *)

Inductive exn : Type :=
| StructError         (* struct.error: the buffer has the wrong size *)
| UnboundLocalError   (* a local variable is read before assignment *)
| WriteError.         (* any exception raised by the archive writer *)

(** [struct.unpack('<H', b)[0]] *)
Definition unpack_H (b : bytes) : exn + Z :=
  match b with
  | [b0; b1] => inr (byte_val b0 + 256 * byte_val b1)
  | _ => inl StructError
  end.

(** [struct.unpack('<I', b)[0]] *)
Definition unpack_I (b : bytes) : exn + Z :=
  match b with
  | [b0; b1; b2; b3] =>
      inr (byte_val b0 + 256 * byte_val b1
           + 65536 * byte_val b2 + 16777216 * byte_val b3)
  | _ => inl StructError
  end.

(** ** Constants for the ZIP file format *)

Definition LOCAL_FILE_HEADER : bytes := [x50; x4b; x03; x04].
Definition CENTRAL_DIR_HEADER : bytes := [x50; x4b; x01; x02].
Definition END_OF_CENTRAL_DIR : bytes := [x50; x4b; x05; x06].

(** ** [find_file_signatures] *)

Record signatures : Type := {
  local_headers : list Z;
  central_dir_headers : list Z;
  end_of_central_dir : option Z
}.

(** A successful [find] returns an index at or after the start of the
    search; this is what makes the scanner's loop terminate. *)
Lemma find_from_ge sub data i :
  find_from sub data i = -1 \/ i <= find_from sub data i.
Proof.
  revert i. induction data as [|d rest IH]; intros i; simpl.
  - destruct (starts_with sub []); lia.
  - destruct (starts_with sub (d :: rest)); [lia|].
    destruct (IH (i + 1)); lia.
Qed.

Lemma bytes_find_progress data sig offset :
  (bytes_find data sig offset =? -1) = false ->
  offset <= len data /\ offset < bytes_find data sig offset + 4.
Proof.
  unfold bytes_find, len. intros Hfound.
  destruct (offset <? 0) eqn:Hneg.
  - match type of Hfound with context [find_from ?s ?d ?i] =>
      destruct (find_from_ge s d i) end;
    destruct (_ <? Z.max _ _); lia.
  - match type of Hfound with context [find_from ?s ?d ?i] =>
      destruct (find_from_ge s d i) end;
    destruct (_ <? offset) eqn:Hl; lia.
Qed.

Definition inspect {A} (a : A) : {b | a = b} := exist _ a eq_refl.

(** The equation of [scan_loop] is proved without functional
    extensionality. *)
Unset Equations With Funext.

(** One [while True] loop of the scanner: [found] is the list built so
    far, [offset] the loop variable.
<<
    while True:
        offset = data.find(SIG, offset)
        if offset == -1: break
        found.append(offset)
        offset += 4
>>
    The loop terminates because [len data + 1 - offset] decreases. *)
Equations? scan_loop (data sig : bytes) (found : list Z) (offset : Z)
  : list Z by wf (Z.to_nat (len data + 1 - offset)) lt :=
  scan_loop data sig found offset
    with inspect (bytes_find data sig offset =? -1) => {
    | exist _ true _ := found ;
    | exist _ false Hfound :=
        scan_loop data sig (found ++ [bytes_find data sig offset])
          (bytes_find data sig offset + 4) }.
Proof.
  destruct (bytes_find_progress data sig offset Hfound). lia.
Qed.

Definition find_file_signatures (data : bytes) : signatures :=
  let offset := bytes_rfind data END_OF_CENTRAL_DIR in
  {| local_headers := scan_loop data LOCAL_FILE_HEADER [] 0;
     central_dir_headers := scan_loop data CENTRAL_DIR_HEADER [] 0;
     end_of_central_dir := if offset =? -1 then None else Some offset |}.

(** ** Text *)

(** A Python [str]: the sequence of its code points. *)
Definition text := list Z.

Definition text_of_string (s : string) : text :=
  map (fun a => Z.of_N (N_of_ascii a)) (list_ascii_of_string s).

(** [str(i)] for a non-negative [int]. *)
Definition str_of_nat (i : nat) : text :=
  text_of_string (NilZero.string_of_uint (Nat.to_uint i)).

(** [f"recovered_file_{i}.bin"] *)
Definition recovered_name (i : nat) : text :=
  text_of_string "recovered_file_" ++ str_of_nat i ++ text_of_string ".bin".

(** ** The collaborators of the repair pass

    Two pieces of the Python library are used by [repair_zip] and are not
    part of the repository: the UTF-8 codec in its [errors='replace'] mode,
    which never raises, and the [zipfile] writer.  The embedding is
    parametric in both.  [writestr] returns the exception it raised, if
    any, and the archive it leaves behind. *)
Class Collaborators : Type := {
  decode_utf8_replace : bytes -> text;
  ZipFile : Type;
  ZipFile_w : ZipFile;
  writestr : text -> bytes -> ZipFile -> option exn * ZipFile
}.

(** What [repair_zip] prints. *)
Inductive message : Type :=
| NoHeadersFound
| FoundEntries (n : nat)
| RecoveredFile (filename : text)
| ErrorProcessing (offset : Z) (e : exn)
| RepairCompleted.

Section Statements.

Context {C : Collaborators}.

(** *** [extract_filename_from_header]

    The [try] covers the whole body; the only statement that can raise is
    the [struct.unpack], slicing and replace-mode decoding being total. *)
Definition extract_filename_from_header (data : bytes) (offset : Z)
  : option text :=
  match unpack_H (slice data (offset + 26) (offset + 28)) with
  | inr filename_length =>
      let filename :=
        slice data (offset + 30) (offset + 30 + filename_length) in
      Some (decode_utf8_replace filename)
  | inl _ => None
  end.

(** [filename] after [if not filename: filename = f"recovered_file_{i}.bin"];
    [None] and the empty string are the falsy values. *)
Definition resolve_filename (filename : option text) (i : nat) : text :=
  match filename with
  | None | Some [] => recovered_name i
  | Some name => name
  end.

(** The inner [for next_header in signatures['local_headers']] loop: the
    first header greater than [offset], if any. *)
Definition find_next_offset (headers : list Z) (offset : Z) : option Z :=
  List.find (fun next_header => offset <? next_header) headers.

(** *** The frame of [repair_zip] inside the [with] block

    [filename_length] is the one local variable of [repair_zip] that the
    loop body reads on a path that has not assigned it in the same
    iteration; [None] stands for an unbound variable.  Every other local is
    assigned before each use and is a [let] below. *)
Record frame : Type := {
  filename_length : option Z;
  new_zip : ZipFile;
  stdout : list message
}.

(** Statements: a frame transformer that returns a value or the exception
    raised.  The frame reached when an exception is raised is kept, as
    Python keeps the assignments made before a [raise]. *)
Definition stmt (A : Type) : Type := frame -> (exn + A) * frame.

Definition ret {A} (a : A) : stmt A := fun s => (inr a, s).

Definition bind {A B} (m : stmt A) (k : A -> stmt B) : stmt B :=
  fun s => match m s with
           | (inr a, s') => k a s'
           | (inl e, s') => (inl e, s')
           end.

(** [try: body  except ...: handler] *)
Definition try_except {A} (body : stmt A) (handler : exn -> stmt A)
  : stmt A :=
  fun s => match body s with
           | (inr a, s') => (inr a, s')
           | (inl e, s') => handler e s'
           end.

Definition eval {A} (r : exn + A) : stmt A := fun s => (r, s).

Definition read_filename_length : stmt Z :=
  fun s => match filename_length s with
           | Some v => (inr v, s)
           | None => (inl UnboundLocalError, s)
           end.

Definition assign_filename_length (v : Z) : stmt unit :=
  fun s => (inr tt, {| filename_length := Some v;
                       new_zip := new_zip s;
                       stdout := stdout s |}).

Definition print (m : message) : stmt unit :=
  fun s => (inr tt, {| filename_length := filename_length s;
                       new_zip := new_zip s;
                       stdout := stdout s ++ [m] |}).

(** [new_zip.writestr(filename, file_data)] *)
Definition new_zip_writestr (filename : text) (file_data : bytes)
  : stmt unit :=
  fun s => let (raised, z) := writestr filename file_data (new_zip s) in
           (match raised with Some e => inl e | None => inr tt end,
            {| filename_length := filename_length s;
               new_zip := z;
               stdout := stdout s |}).

End Statements.

Declare Scope stmt_scope.
Delimit Scope stmt_scope with stmt.
Notation "x <- m ;; k" := (bind m (fun x => k))
  (at level 61, m at next level, right associativity) : stmt_scope.
Notation "m ;; k" := (bind m (fun _ => k))
  (at level 61, right associativity) : stmt_scope.

Section Repair.

Context {C : Collaborators}.
Local Open Scope stmt_scope.

(** *** The three ways [repair_zip] computes [file_data] *)

(** Lines 96-99, the body of the inner [try]: the declared compressed size. *)
Definition declared_size_branch (data : bytes) (offset : Z) : stmt bytes :=
  compressed_size <-
    eval (unpack_I (slice data (offset + 18) (offset + 22))) ;;
  extra_field_length <-
    eval (unpack_H (slice data (offset + 28) (offset + 30))) ;;
  filename_length <- read_filename_length ;;
  let file_data_offset := offset + 30 + filename_length + extra_field_length in
  ret (slice data file_data_offset (file_data_offset + compressed_size)).

(** Lines 102-105, the handler of the inner [try]: at most 1 MiB. *)
Definition one_mib_branch (data : bytes) (offset : Z) : stmt bytes :=
  filename_length <-
    eval (unpack_H (slice data (offset + 26) (offset + 28))) ;;
  assign_filename_length filename_length ;;
  extra_field_length <-
    eval (unpack_H (slice data (offset + 28) (offset + 30))) ;;
  let file_data_offset := offset + 30 + filename_length + extra_field_length in
  ret (slice data file_data_offset (file_data_offset + 1024 * 1024)).

(** Lines 108-111: up to the next header. *)
Definition next_header_branch (data : bytes) (offset next_offset : Z)
  : stmt bytes :=
  filename_length <-
    eval (unpack_H (slice data (offset + 26) (offset + 28))) ;;
  assign_filename_length filename_length ;;
  extra_field_length <-
    eval (unpack_H (slice data (offset + 28) (offset + 30))) ;;
  let file_data_offset := offset + 30 + filename_length + extra_field_length in
  ret (slice data file_data_offset next_offset).

(** Lines 93-111. *)
Definition compute_file_data (data : bytes) (offset : Z)
    (next_offset : option Z) : stmt bytes :=
  match next_offset with
  | None =>
      try_except (declared_size_branch data offset)
                 (fun _ => one_mib_branch data offset)
  | Some next_offset => next_header_branch data offset next_offset
  end.

(** Lines 80-115, the body of the outer [try]. *)
Definition process_entry (data : bytes) (headers : list Z) (i : nat)
    (offset : Z) : stmt unit :=
  let filename := extract_filename_from_header data offset in
  let filename := resolve_filename filename i in
  let next_offset := find_next_offset headers offset in
  file_data <- compute_file_data data offset next_offset ;;
  new_zip_writestr filename file_data ;;
  print (RecoveredFile filename).

(** Lines 79-117, one iteration of the [for] loop. *)
Definition loop_body (data : bytes) (headers : list Z) (i : nat)
    (offset : Z) : stmt unit :=
  try_except (process_entry data headers i offset)
             (fun e => print (ErrorProcessing offset e)).

(** [for i, offset in enumerate(l)], counting from [i]. *)
Fixpoint for_enumerate (body : nat -> Z -> stmt unit) (i : nat)
    (l : list Z) : stmt unit :=
  match l with
  | [] => ret tt
  | offset :: rest => body i offset ;; for_enumerate body (S i) rest
  end.

(** *** [repair_zip]

    What outlives a call: the archive stored at [output_path], if there is
    one, and the console. *)
Record world : Type := {
  output_file : option ZipFile;
  console : list message
}.

Definition repair_zip (data : bytes) (w : world) : (exn + bool) * world :=
  let signatures := find_file_signatures data in
  match local_headers signatures with
  | [] =>
      (inr false, {| output_file := output_file w;
                     console := console w ++ [NoHeadersFound] |})
  | _ :: _ =>
      let entered :=
        {| filename_length := None;
           new_zip := ZipFile_w;
           stdout :=
             console w
             ++ [FoundEntries (List.length (local_headers signatures))] |} in
      match for_enumerate
              (loop_body data (local_headers signatures)) 0
              (local_headers signatures) entered with
      | (inr _, exited) =>
          (inr true, {| output_file := Some (new_zip exited);
                        console := stdout exited ++ [RepairCompleted] |})
      | (inl e, exited) =>
          (inl e, {| output_file := Some (new_zip exited);
                     console := stdout exited |})
      end
  end.

End Repair.

(** ** Reference collaborators

    Concrete collaborators, used to run the repair pass on concrete
    buffers. *)

(** The UTF-8 codec of CPython in [errors='replace'] mode: every maximal
    ill-formed prefix of a sequence (an invalid start byte, a lead byte
    with the continuation bytes accepted so far, or a truncated sequence at
    the end of the input) becomes one U+FFFD. *)
Definition REPLACEMENT_CHARACTER : Z := 65533.

Definition is_continuation (c : Z) : bool := (128 <=? c) && (c <? 192).

Fixpoint utf8_replace (s : bytes) : text :=
  match s with
  | [] => []
  | b0 :: t1 =>
      let c0 := byte_val b0 in
      if c0 <? 128 then c0 :: utf8_replace t1
      else if c0 <? 194 then REPLACEMENT_CHARACTER :: utf8_replace t1
      else if c0 <? 224 then
        match t1 with
        | [] => [REPLACEMENT_CHARACTER]
        | b1 :: t2 =>
            let c1 := byte_val b1 in
            if is_continuation c1
            then ((c0 - 192) * 64 + (c1 - 128)) :: utf8_replace t2
            else REPLACEMENT_CHARACTER :: utf8_replace t1
        end
      else if c0 <? 240 then
        match t1 with
        | [] => [REPLACEMENT_CHARACTER]
        | b1 :: t2 =>
            let c1 := byte_val b1 in
            if negb (is_continuation c1)
               || (if c1 <? 160 then c0 =? 224 else c0 =? 237)
            then REPLACEMENT_CHARACTER :: utf8_replace t1
            else
              match t2 with
              | [] => [REPLACEMENT_CHARACTER]
              | b2 :: t3 =>
                  let c2 := byte_val b2 in
                  if is_continuation c2
                  then ((c0 - 224) * 4096 + (c1 - 128) * 64 + (c2 - 128))
                         :: utf8_replace t3
                  else REPLACEMENT_CHARACTER :: utf8_replace t2
              end
        end
      else if c0 <? 245 then
        match t1 with
        | [] => [REPLACEMENT_CHARACTER]
        | b1 :: t2 =>
            let c1 := byte_val b1 in
            if negb (is_continuation c1)
               || (if c1 <? 144 then c0 =? 240 else c0 =? 244)
            then REPLACEMENT_CHARACTER :: utf8_replace t1
            else
              match t2 with
              | [] => [REPLACEMENT_CHARACTER]
              | b2 :: t3 =>
                  let c2 := byte_val b2 in
                  if negb (is_continuation c2)
                  then REPLACEMENT_CHARACTER :: utf8_replace t2
                  else
                    match t3 with
                    | [] => [REPLACEMENT_CHARACTER]
                    | b3 :: t4 =>
                        let c3 := byte_val b3 in
                        if is_continuation c3
                        then ((c0 - 240) * 262144 + (c1 - 128) * 4096
                              + (c2 - 128) * 64 + (c3 - 128))
                               :: utf8_replace t4
                        else REPLACEMENT_CHARACTER :: utf8_replace t3
                    end
              end
        end
      else REPLACEMENT_CHARACTER :: utf8_replace t1
  end.

(** An archive that records, in order, the (filename, payload) pairs handed
    to [writestr], and never raises. *)
Definition recording : Collaborators :=
  {| decode_utf8_replace := utf8_replace;
     ZipFile := list (text * bytes);
     ZipFile_w := [];
     writestr := fun filename file_data z =>
                   (None, z ++ [(filename, file_data)]) |}.

(** The recorded pairs, as an archive of [recording]. *)
Definition archive (entries : list (text * bytes)) : @ZipFile recording :=
  entries.

(** An archive with room for [n] entries: [writestr] raises once it is
    full and leaves the archive as it was. *)
Definition bounded (n : nat) : Collaborators :=
  {| decode_utf8_replace := utf8_replace;
     ZipFile := list (text * bytes);
     ZipFile_w := [];
     writestr := fun filename file_data z =>
                   if (List.length z <? n)%nat
                   then (None, z ++ [(filename, file_data)])
                   else (Some WriteError, z) |}.

(** The world before anything was written or printed. *)
Definition fresh_world {C : Collaborators} : world :=
  {| output_file := None; console := [] |}.

(** ** Test fixtures: well-formed records of the ZIP layout *)

Definition byte_of_Z (z : Z) : byte :=
  match Byte.of_N (Z.to_N (z mod 256)) with
  | Some b => b
  | None => x00
  end.

Definition le16 (z : Z) : bytes := [byte_of_Z z; byte_of_Z (z / 256)].

Definition le32 (z : Z) : bytes := le16 z ++ le16 (z / 65536).

Definition ascii_bytes (s : string) : bytes := list_byte_of_string s.

(** A 30-byte local file header (stored, no flags, no checksum) followed by
    the file name and the extra field. *)
Definition local_header (name : bytes) (compressed_size : Z) (extra : bytes)
  : bytes :=
  LOCAL_FILE_HEADER
  ++ le16 20 ++ le16 0 ++ le16 0 ++ le16 0 ++ le16 0 ++ le32 0
  ++ le32 compressed_size ++ le32 compressed_size
  ++ le16 (len name) ++ le16 (len extra) ++ name ++ extra.

(** A 22-byte end-of-central-directory record with every field zero. *)
Definition empty_end_record : bytes :=
  END_OF_CENTRAL_DIR ++ repeat x00 18.

(** One stored entry [a.txt] holding [hello], declared size 5, followed by
    an end-of-central-directory record. *)
Definition single_entry_buffer : bytes :=
  local_header (ascii_bytes "a.txt") 5 [] ++ ascii_bytes "hello"
  ++ empty_end_record.

(** Two stored entries, [ab] holding [xyz] and [abcd.txt] holding [wxyz],
    followed by four more bytes. *)
Definition two_entry_buffer : bytes :=
  local_header (ascii_bytes "ab") 3 [] ++ ascii_bytes "xyz"
  ++ local_header (ascii_bytes "abcd.txt") 4 [] ++ ascii_bytes "wxyz"
  ++ ascii_bytes "tail".

(** The header of [a.txt] cut one byte before the end of its fixed part:
    the extra-field length at 28..29 is incomplete. *)
Definition cut_header_buffer : bytes :=
  firstn 29 (local_header (ascii_bytes "a.txt") 5 []).

(** The frame in which the loop of [repair_zip] starts when nothing was on
    the console. *)
Definition entered_frame (C : Collaborators) (n : nat) : frame :=
  {| filename_length := None; new_zip := ZipFile_w;
     stdout := [FoundEntries n] |}.

(** ** A summary of the loop

    What the iterations compute, written as functions of the buffer, of
    the list of headers and of the value of [filename_length] that the
    earlier iterations left behind; and what the writer and the console
    make of it.  Lemma [for_enumerate_summary] shows that the loop of
    [repair_zip] is equal to this summary. *)

(** The half-open range [start, stop) of buffer indices that [file_data]
    is sliced from. *)
Definition span : Type := (Z * Z)%type.

Definition set_filename_length (v : option Z) {C : Collaborators}
    (s : frame) : frame :=
  {| filename_length := v; new_zip := new_zip s; stdout := stdout s |}.

(** Lines 96-99: the span, or the exception raised; [filename_length] is
    read and not assigned. *)
Definition declared_size_span (data : bytes) (offset : Z) (fl : option Z)
  : exn + span :=
  match unpack_I (slice data (offset + 18) (offset + 22)) with
  | inl e => inl e
  | inr compressed_size =>
      match unpack_H (slice data (offset + 28) (offset + 30)) with
      | inl e => inl e
      | inr extra_field_length =>
          match fl with
          | None => inl UnboundLocalError
          | Some filename_length =>
              let start :=
                offset + 30 + filename_length + extra_field_length in
              inr (start, start + compressed_size)
          end
      end
  end.

(** Lines 102-105 and 108-111: both read the two length fields, assign
    [filename_length], and differ in where the span stops.  The result is
    the span, or the exception raised, and the value of [filename_length]
    afterwards. *)
Definition header_span (data : bytes) (offset : Z) (stop : Z -> Z)
    (fl : option Z) : (exn + span) * option Z :=
  match unpack_H (slice data (offset + 26) (offset + 28)) with
  | inl e => (inl e, fl)
  | inr filename_length =>
      match unpack_H (slice data (offset + 28) (offset + 30)) with
      | inl e => (inl e, Some filename_length)
      | inr extra_field_length =>
          let start := offset + 30 + filename_length + extra_field_length in
          (inr (start, stop start), Some filename_length)
      end
  end.

(** Lines 93-111. *)
Definition payload_span (data : bytes) (offset : Z) (next_offset : option Z)
    (fl : option Z) : (exn + span) * option Z :=
  match next_offset with
  | Some next_offset => header_span data offset (fun _ => next_offset) fl
  | None =>
      match declared_size_span data offset fl with
      | inr sp => (inr sp, fl)
      | inl _ =>
          header_span data offset (fun start => start + 1024 * 1024) fl
      end
  end.

(** A bound [filename_length] holds a value that was read from a header
    field, hence is not negative. *)
Definition read_from_field (fl : option Z) : Prop :=
  match fl with
  | Some v => 0 <= v
  | None => True
  end.

(** [data[start:stop]], when the span was computed. *)
Definition slice_span (data : bytes) (r : exn + span) : exn + bytes :=
  match r with
  | inl e => inl e
  | inr (start, stop) => inr (slice data start stop)
  end.

(** What one iteration found out about the entry at [outcome_offset]. *)
Record outcome : Type := {
  outcome_offset : Z;
  outcome_name : text;
  outcome_span : exn + span
}.

(** What an outcome may leave on the console: the name of the entry when
    it was written, or the offset and the exception. *)
Definition reports (o : outcome) (m : message) : Prop :=
  m = RecoveredFile (outcome_name o)
  \/ exists e, m = ErrorProcessing (outcome_offset o) e.

Section Summary.

Context {C : Collaborators}.

Fixpoint outcomes (data : bytes) (headers : list Z) (i : nat) (l : list Z)
    (fl : option Z) : list outcome :=
  match l with
  | [] => []
  | offset :: rest =>
      let (sp, fl') :=
        payload_span data offset (find_next_offset headers offset) fl in
      {| outcome_offset := offset;
         outcome_name :=
           resolve_filename (extract_filename_from_header data offset) i;
         outcome_span := sp |}
      :: outcomes data headers (S i) rest fl'
  end.

(** The outcomes of a whole run. *)
Definition run_outcomes (data : bytes) : list outcome :=
  let headers := local_headers (find_file_signatures data) in
  outcomes data headers 0 headers None.

(** The archive and the console after one outcome was handled. *)
Definition commit_one (data : bytes) (o : outcome) (z : ZipFile)
    (out : list message) : ZipFile * list message :=
  match outcome_span o with
  | inl e => (z, out ++ [ErrorProcessing (outcome_offset o) e])
  | inr (start, stop) =>
      match writestr (outcome_name o) (slice data start stop) z with
      | (None, z') => (z', out ++ [RecoveredFile (outcome_name o)])
      | (Some e, z') => (z', out ++ [ErrorProcessing (outcome_offset o) e])
      end
  end.

Fixpoint commit (data : bytes) (plan : list outcome) (z : ZipFile)
    (out : list message) : ZipFile * list message :=
  match plan with
  | [] => (z, out)
  | o :: rest =>
      let (z', out') := commit_one data o z out in commit data rest z' out'
  end.

End Summary.

(** The (filename, payload) pairs of the entries whose span was computed,
    in the order of their offsets. *)
Definition recovered_pairs {C : Collaborators} (data : bytes)
  : list (text * bytes) :=
  flat_map (fun o => match outcome_span o with
                     | inr (start, stop) =>
                         [(outcome_name o, slice data start stop)]
                     | inl _ => []
                     end)
           (run_outcomes data).

(** The number of payload bytes that an outcome contributes. *)
Definition payload_size (data : bytes) (o : outcome) : nat :=
  match outcome_span o with
  | inr (start, stop) => List.length (slice data start stop)
  | inl _ => 0%nat
  end.

(** ** [extract_files] and [main]

    The library calls of the command-line tool are collaborators: they
    act on a disk of some type and may raise an exception of some type.
    [os.path.exists] does not raise.  [open_zip] stands for
    [zipfile.ZipFile(zip_path)] followed by [z.infolist()], and
    [extract_member] for [z.extract(file_info, output_dir)].
    [with_suffix_fixed p] is [str(Path(p).with_suffix('.fixed.zip'))],
    which raises for a path without a name, and [stem p] is
    [Path(p).stem]. *)
Class Platform : Type := {
  disk : Type;
  error : Type;
  member : Type;
  member_filename : member -> string;
  path_exists : string -> disk -> bool;
  makedirs : string -> disk -> option error * disk;
  open_zip : string -> disk -> (error + list member) * disk;
  extract_member : string -> member -> string -> disk -> option error * disk;
  stem : string -> string;
  with_suffix_fixed : string -> error + string
}.

(** What [extract_files] and [main] print, and what [repair_zip] prints in
    between. *)
Inductive notice {P : Platform} : Type :=
| Extracted (filename : string)
| FailedToExtract (filename : string) (e : error)
| ErrorOpeningZip (e : error)
| FileDoesNotExist (zip_file : string)
| BothFlagsGiven
| AttemptingToExtract (zip_file : string)
| ExtractionSuccessful
| DirectExtractionFailed
| AttemptingToRepair (zip_file : string)
| AttemptingToExtractRepaired
| ExtractionFromRepairedSuccessful
| PrintedByRepair (m : message).

Section CommandLine.

Context {P : Platform}.

(** The disk and the console. *)
Record machine : Type := {
  on_disk : disk;
  printed : list notice
}.

(** A call that may raise. *)
Definition action (A : Type) : Type := machine -> (error + A) * machine.

Definition done {A} (a : A) : action A := fun m => (inr a, m).

Definition and_then {A B} (c : action A) (k : A -> action B) : action B :=
  fun m => match c m with
           | (inr a, m') => k a m'
           | (inl e, m') => (inl e, m')
           end.

Definition say (n : notice) : action unit :=
  fun m => (inr tt, {| on_disk := on_disk m; printed := printed m ++ [n] |}).

(** A library call that returns normally or raises. *)
Definition library (call : disk -> option error * disk) : action unit :=
  fun m => let (raised, d) := call (on_disk m) in
           (match raised with Some e => inl e | None => inr tt end,
            {| on_disk := d; printed := printed m |}).

(** What the calls of [z.extract] for the members of an archive, one after
    the other from the disk [d], make [extract_files] print, and the disk
    they leave: a member is reported as extracted when its call returned,
    and as failed, with the exception, when its call raised. *)
Inductive members_reported (zip_path output_dir : string)
  : list member -> disk -> list notice -> disk -> Prop :=
| reported_none (d : disk) :
    members_reported zip_path output_dir [] d [] d
| reported_extracted (file_info : member) (rest : list member)
    (d d1 d2 : disk) (notes : list notice) :
    extract_member zip_path file_info output_dir d = (None, d1) ->
    members_reported zip_path output_dir rest d1 notes d2 ->
    members_reported zip_path output_dir (file_info :: rest) d
      (Extracted (member_filename file_info) :: notes) d2
| reported_failed (file_info : member) (rest : list member) (e : error)
    (d d1 d2 : disk) (notes : list notice) :
    extract_member zip_path file_info output_dir d = (Some e, d1) ->
    members_reported zip_path output_dir rest d1 notes d2 ->
    members_reported zip_path output_dir (file_info :: rest) d
      (FailedToExtract (member_filename file_info) e :: notes) d2.

(** Lines 132-137: the loop over the members, each in its own [try]. *)
Fixpoint extract_each (zip_path output_dir : string)
    (infolist : list member) : action unit :=
  match infolist with
  | [] => done tt
  | file_info :: rest =>
      and_then
        (fun m =>
           match library (extract_member zip_path file_info output_dir) m with
           | (inr _, m') => say (Extracted (member_filename file_info)) m'
           | (inl e, m') =>
               say (FailedToExtract (member_filename file_info) e) m'
           end)
        (fun _ => extract_each zip_path output_dir rest)
  end.

(** [extract_files(zip_path, output_dir)] *)
Definition extract_files (zip_path : string) (output_dir : option string)
  : action bool :=
  let output_dir :=
    match output_dir with
    | None => (stem zip_path ++ "_extracted")%string
    | Some output_dir => output_dir
    end in
  and_then
    (fun m => if path_exists output_dir (on_disk m) then done tt m
              else library (makedirs output_dir) m)
    (fun _ m =>
       match open_zip zip_path (on_disk m) with
       | (inr infolist, d) =>
           and_then (extract_each zip_path output_dir infolist)
                    (fun _ => done true)
                    {| on_disk := d; printed := printed m |}
       | (inl e, d) =>
           and_then (say (ErrorOpeningZip e)) (fun _ => done false)
                    {| on_disk := d; printed := printed m |}
       end).

(** The parsed command line. *)
Record arguments : Type := {
  zip_file : string;
  output : option string;
  fixed : option string;
  extract_only : bool;
  repair_only : bool
}.

(** The value of [x if x else default] for an optional string: [None] and
    the empty string are falsy. *)
Definition or_else (x : option string) (default : action string)
  : action string :=
  match x with
  | None | Some EmptyString => default
  | Some s => done s
  end.

(** Lines 174-189 of [main], entered with the value of [success]. *)
Definition repair_stage
    (extract : string -> option string -> action bool)
    (repair : string -> string -> action bool)
    (args : arguments) (success : bool) : action Z :=
  and_then
    (if negb (extract_only args) then
       and_then
         (or_else (fixed args)
            (fun m => (with_suffix_fixed (zip_file args), m)))
         (fun fixed_zip =>
       and_then (say (AttemptingToRepair (zip_file args))) (fun _ =>
       and_then (repair (zip_file args) fixed_zip) (fun repair_success =>
       if repair_success && negb (repair_only args) then
         and_then (say AttemptingToExtractRepaired) (fun _ =>
         and_then
           (or_else (output args)
              (done (stem (zip_file args) ++ "_extracted")%string))
           (fun extract_output =>
         and_then (extract fixed_zip (Some extract_output))
           (fun extract_success =>
         if extract_success then
           and_then (say ExtractionFromRepairedSuccessful)
                    (fun _ => done true)
         else done success)))
       else done success)))
     else done success)
    (fun success => done (if success then 0 else 1)).

(** [main()], after the command line was parsed; the result is the exit
    status.  [extract] and [repair] are the two functions it calls. *)
Definition main
    (extract : string -> option string -> action bool)
    (repair : string -> string -> action bool)
    (args : arguments) : action Z :=
  fun m =>
    if negb (path_exists (zip_file args) (on_disk m)) then
      and_then (say (FileDoesNotExist (zip_file args))) (fun _ => done 1) m
    else if extract_only args && repair_only args then
      and_then (say BothFlagsGiven) (fun _ => done 1) m
    else if negb (repair_only args) then
      and_then (say (AttemptingToExtract (zip_file args))) (fun _ =>
      and_then (extract (zip_file args) (output args)) (fun success =>
      if success then
        and_then (say ExtractionSuccessful) (fun _ =>
        if extract_only args then done 0
        else repair_stage extract repair args true)
      else
        and_then (say DirectExtractionFailed) (fun _ =>
        repair_stage extract repair args false))) m
    else repair_stage extract repair args false m.

End CommandLine.

(** A small platform on which [main] can be run: the disk is the list of
    the paths that exist, an archive that exists opens and holds the one
    member [a.txt], and nothing raises but the opening of a missing
    archive. *)
Definition toy : Platform :=
  {| disk := list string;
     error := string;
     member := string;
     member_filename := fun file_info => file_info;
     path_exists := fun p d => existsb (String.eqb p) d;
     makedirs := fun p d => (None, p :: d);
     open_zip := fun p d =>
                   if existsb (String.eqb p) d
                   then (inr ["a.txt"%string], d)
                   else (inl "no such file"%string, d);
     extract_member := fun _ file_info output_dir d =>
                         (None, (output_dir ++ "/" ++ file_info)%string :: d);
     stem := fun p => p;
     with_suffix_fixed := fun p => inr (p ++ ".fixed.zip")%string |}.

(** The same with a second member, [b.txt], whose extraction raises. *)
Definition refusing : Platform :=
  {| disk := list string;
     error := string;
     member := string;
     member_filename := fun file_info => file_info;
     path_exists := fun p d => existsb (String.eqb p) d;
     makedirs := fun p d => (None, p :: d);
     open_zip := fun p d =>
                   if existsb (String.eqb p) d
                   then (inr ["a.txt"; "b.txt"]%string, d)
                   else (inl "no such file"%string, d);
     extract_member := fun _ file_info output_dir d =>
                         if String.eqb file_info "b.txt"
                         then (Some "read-only"%string, d)
                         else (None,
                               (output_dir ++ "/" ++ file_info)%string :: d);
     stem := fun p => p;
     with_suffix_fixed := fun p => inr (p ++ ".fixed.zip")%string |}.

(** A repair that always succeeds and creates the output archive. *)
Definition toy_repair (file_path output_path : string)
  : action (P := toy) bool :=
  fun m => (inr true,
            @Build_machine toy (output_path :: on_disk m) (printed m)).

Definition toy_machine (paths : list string) : machine (P := toy) :=
  @Build_machine toy paths [].

(** * Properties *)

(** ** Slices and [struct.unpack] *)

Lemma len_nonneg (data : bytes) : 0 <= len data.
Proof. unfold len. lia. Qed.

Lemma clip_index_nonneg n i : 0 <= i -> clip_index n i = Z.min i n.
Proof.
  intros Hi. unfold clip_index.
  destruct (Z.ltb_spec i 0); [lia | reflexivity].
Qed.

(** With non-negative indices a slice is a [firstn] of a [skipn]. *)
Lemma slice_firstn_skipn (data : bytes) a k :
  0 <= a -> 0 <= k ->
  slice data a (a + k) = firstn (Z.to_nat k) (skipn (Z.to_nat a) data).
Proof.
  intros Ha Hk. unfold slice.
  rewrite !clip_index_nonneg by lia.
  pose proof (len_nonneg data) as Hn. unfold len in *.
  destruct (Z.le_gt_cases a (Z.of_nat (List.length data))) as [Hin | Hout].
  - rewrite (Z.min_l a) by lia.
    destruct (Z.le_gt_cases (a + k) (Z.of_nat (List.length data))).
    + rewrite Z.min_l by lia. f_equal. lia.
    + rewrite Z.min_r by lia.
      transitivity (skipn (Z.to_nat a) data);
        [| symmetry]; apply firstn_all2; rewrite length_skipn; lia.
  - rewrite !Z.min_r by lia.
    rewrite !skipn_all2 by lia. now rewrite !firstn_nil.
Qed.

Lemma len_slice (data : bytes) a b :
  0 <= a -> 0 <= b ->
  len (slice data a b) = Z.max 0 (Z.min b (len data) - Z.min a (len data)).
Proof.
  intros Ha Hb. unfold slice, len.
  rewrite !clip_index_nonneg by lia.
  rewrite length_firstn, length_skipn. lia.
Qed.

(** A slice whose start is not before its stop is empty. *)
Lemma slice_inverted (data : bytes) a b :
  0 <= b <= a -> slice data a b = [].
Proof.
  intros H. unfold slice. rewrite !clip_index_nonneg by lia.
  replace (Z.to_nat _) with O by lia. reflexivity.
Qed.

(** A slice whose stop is past the end of the buffer is cut at the end. *)
Lemma slice_to_end (data : bytes) a b :
  0 <= a -> len data <= b -> slice data a b = skipn (Z.to_nat a) data.
Proof.
  intros Ha Hb. pose proof (len_nonneg data) as Hn.
  unfold slice. rewrite !clip_index_nonneg by lia.
  rewrite (Z.min_r b) by lia. unfold len in *.
  destruct (Z.le_gt_cases a (Z.of_nat (List.length data))).
  - rewrite Z.min_l by lia.
    apply firstn_all2. rewrite length_skipn. lia.
  - rewrite Z.min_r by lia.
    rewrite !skipn_all2 by lia. now rewrite firstn_nil.
Qed.

Lemma byte_val_range b : 0 <= byte_val b < 256.
Proof.
  unfold byte_val. pose proof (Byte.to_N_bounded b). lia.
Qed.

Lemma unpack_H_inr (b : bytes) :
  len b = 2 -> exists v, unpack_H b = inr v /\ 0 <= v < 65536.
Proof.
  destruct b as [|b0 [|b1 [|b2 b]]]; unfold len; simpl List.length; try lia.
  intros _. eexists; split; [reflexivity|].
  pose proof (byte_val_range b0). pose proof (byte_val_range b1). lia.
Qed.

Lemma unpack_H_range (b : bytes) v : unpack_H b = inr v -> 0 <= v < 65536.
Proof.
  destruct b as [|b0 [|b1 [|b2 b]]]; try discriminate.
  unfold unpack_H. intros H.
  assert (v = byte_val b0 + 256 * byte_val b1) as -> by congruence.
  pose proof (byte_val_range b0). pose proof (byte_val_range b1). lia.
Qed.

Lemma unpack_H_inl (b : bytes) : len b <> 2 -> unpack_H b = inl StructError.
Proof.
  destruct b as [|b0 [|b1 [|b2 b]]];
    unfold len; simpl List.length; try reflexivity. lia.
Qed.

Lemma unpack_I_inr (b : bytes) :
  len b = 4 -> exists v, unpack_I b = inr v /\ 0 <= v < 4294967296.
Proof.
  destruct b as [|b0 [|b1 [|b2 [|b3 [|b4 b]]]]];
    unfold len; simpl List.length; try lia.
  intros _. eexists; split; [reflexivity|].
  pose proof (byte_val_range b0). pose proof (byte_val_range b1).
  pose proof (byte_val_range b2). pose proof (byte_val_range b3). lia.
Qed.

Lemma unpack_I_inl (b : bytes) : len b <> 4 -> unpack_I b = inl StructError.
Proof.
  destruct b as [|b0 [|b1 [|b2 [|b3 [|b4 b]]]]];
    unfold len; simpl List.length; try reflexivity. lia.
Qed.

Lemma unpack_I_range (b : bytes) v :
  unpack_I b = inr v -> 0 <= v < 4294967296.
Proof.
  intros Hv. destruct (Z.eq_dec (len b) 4) as [Hlen | Hlen].
  - destruct (unpack_I_inr b Hlen) as (v' & Hv' & Hrange). congruence.
  - rewrite (unpack_I_inl b Hlen) in Hv. discriminate.
Qed.

(** Reading a 2-byte field at [pos]: it succeeds exactly when the field
    lies inside the buffer. *)
Lemma read_H_inside (data : bytes) pos :
  0 <= pos -> pos + 2 <= len data ->
  exists v, unpack_H (slice data pos (pos + 2)) = inr v /\ 0 <= v < 65536.
Proof.
  intros Hp Hin. apply unpack_H_inr. rewrite len_slice by lia. lia.
Qed.

Lemma read_H_outside (data : bytes) pos :
  0 <= pos -> len data < pos + 2 ->
  unpack_H (slice data pos (pos + 2)) = inl StructError.
Proof.
  intros Hp Hout. pose proof (len_nonneg data).
  apply unpack_H_inl. rewrite len_slice by lia. lia.
Qed.

Lemma read_I_inside (data : bytes) pos :
  0 <= pos -> pos + 4 <= len data ->
  exists v, unpack_I (slice data pos (pos + 4)) = inr v /\ 0 <= v < 4294967296.
Proof.
  intros Hp Hin. apply unpack_I_inr. rewrite len_slice by lia. lia.
Qed.

Lemma read_I_outside (data : bytes) pos :
  0 <= pos -> len data < pos + 4 ->
  unpack_I (slice data pos (pos + 4)) = inl StructError.
Proof.
  intros Hp Hout. pose proof (len_nonneg data).
  apply unpack_I_inl. rewrite len_slice by lia. lia.
Qed.

(** ** Substring search *)

Lemma starts_with_firstn sub data :
  starts_with sub data = true <-> firstn (List.length sub) data = sub.
Proof.
  revert data. induction sub as [|s sub IH]; intros [|d data]; simpl.
  - tauto.
  - tauto.
  - split; discriminate.
  - rewrite andb_true_iff, IH. split.
    + intros [Hb Hrest]. apply Byte.byte_dec_bl in Hb. now subst; f_equal.
    + intros Heq. injection Heq as -> Hrest.
      split; [now apply Byte.byte_dec_lb | assumption].
Qed.

Lemma occurs_at_starts_with sub data o :
  occurs_at sub data o <->
  0 <= o /\ starts_with sub (skipn (Z.to_nat o) data) = true.
Proof.
  unfold occurs_at. split; intros [Ho H]; split; try assumption.
  - apply starts_with_firstn.
    rewrite slice_firstn_skipn in H by (unfold len; lia).
    unfold len in H. now rewrite Nat2Z.id in H.
  - rewrite slice_firstn_skipn by (unfold len; lia).
    unfold len. rewrite Nat2Z.id. now apply starts_with_firstn.
Qed.

(** An occurrence lies inside the buffer. *)
Lemma occurs_at_inside sub data o :
  sub <> [] -> occurs_at sub data o -> o + len sub <= len data.
Proof.
  intros Hsub [Ho H].
  assert (0 < len sub) by (destruct sub; [congruence | unfold len; simpl; lia]).
  apply (f_equal len) in H. rewrite len_slice in H by lia. lia.
Qed.

Lemma occurs_at_nth_error sub data o j :
  occurs_at sub data o -> (j < List.length sub)%nat ->
  nth_error data (Z.to_nat o + j) = nth_error sub j.
Proof.
  intros Hocc Hj. apply occurs_at_starts_with in Hocc as [Ho H].
  apply starts_with_firstn in H.
  rewrite <- nth_error_skipn.
  transitivity
    (nth_error (firstn (List.length sub) (skipn (Z.to_nat o) data)) j).
  - rewrite nth_error_firstn.
    destruct (Nat.ltb_spec j (List.length sub)); [reflexivity | lia].
  - now rewrite H.
Qed.

Lemma find_from_spec sub data i :
  0 <= i ->
  (find_from sub data i = -1
   /\ forall j : nat, starts_with sub (skipn j data) = false)
  \/ (exists k : nat,
        find_from sub data i = i + Z.of_nat k
        /\ starts_with sub (skipn k data) = true
        /\ forall j : nat, (j < k)%nat ->
                           starts_with sub (skipn j data) = false).
Proof.
  revert i. induction data as [|d rest IH]; intros i Hi; simpl.
  - destruct (starts_with sub []) eqn:E.
    + right. exists O. repeat split; [lia | assumption | lia].
    + left. split; [reflexivity|]. intros j. now rewrite skipn_nil.
  - destruct (starts_with sub (d :: rest)) eqn:E.
    + right. exists O. repeat split; [lia | assumption | lia].
    + destruct (IH (i + 1)) as [[Hr Hnone] | [k (Hr & Hk & Hmin)]]; [lia | |].
      * left. split; [assumption|]. intros [|j]; [assumption | apply Hnone].
      * right. exists (S k). repeat split; [lia | assumption |].
        intros [|j] Hj; [assumption | apply Hmin; lia].
Qed.

(** [find]: [-1] when [sub] does not occur at or after [start], otherwise
    the first such occurrence. *)
Lemma bytes_find_spec data sub start :
  sub <> [] -> 0 <= start ->
  (bytes_find data sub start = -1
   /\ forall o, start <= o -> ~ occurs_at sub data o)
  \/ (start <= bytes_find data sub start
      /\ occurs_at sub data (bytes_find data sub start)
      /\ forall o, start <= o < bytes_find data sub start ->
                   ~ occurs_at sub data o).
Proof.
  intros Hsub Hstart. unfold bytes_find.
  destruct (Z.ltb_spec start 0) as [|_]; [lia|].
  destruct (Z.ltb_spec (len data) start) as [Hpast | Hin].
  - left. split; [reflexivity|]. intros o Ho Hocc.
    apply occurs_at_starts_with in Hocc as [_ Hocc].
    rewrite skipn_all2 in Hocc by (unfold len in Hpast; lia).
    destruct sub; [congruence | discriminate].
  - assert (Hshift : forall o, start <= o ->
              skipn (Z.to_nat o) data
              = skipn (Z.to_nat (o - start)) (skipn (Z.to_nat start) data)).
    { intros o Ho. rewrite skipn_skipn. f_equal. lia. }
    destruct (find_from_spec sub (skipn (Z.to_nat start) data) start Hstart)
      as [[Hr Hnone] | [k (Hr & Hk & Hmin)]].
    + left. split; [assumption|]. intros o Ho Hocc.
      apply occurs_at_starts_with in Hocc as [_ Hocc].
      rewrite Hshift, Hnone in Hocc by assumption. discriminate.
    + right. rewrite Hr. split; [lia|]. split.
      * apply occurs_at_starts_with. split; [lia|].
        rewrite Hshift by lia.
        now replace (Z.to_nat (start + Z.of_nat k - start)) with k by lia.
      * intros o Ho Hocc.
        apply occurs_at_starts_with in Hocc as [_ Hocc].
        rewrite Hshift, Hmin in Hocc by lia. discriminate.
Qed.

Lemma rfind_from_spec sub data i :
  sub <> [] -> 0 <= i ->
  (rfind_from sub data i = -1
   /\ forall j : nat, starts_with sub (skipn j data) = false)
  \/ (exists k : nat,
        rfind_from sub data i = i + Z.of_nat k
        /\ starts_with sub (skipn k data) = true
        /\ forall j : nat, (k < j)%nat ->
                           starts_with sub (skipn j data) = false).
Proof.
  intros Hsub. revert i. induction data as [|d rest IH]; intros i Hi.
  - left. destruct sub; [congruence|]. split; [reflexivity|].
    intros j. now rewrite skipn_nil.
  - cbn [rfind_from].
    destruct (IH (i + 1)) as [[Hr Hnone] | [k (Hr & Hk & Hmax)]]; [lia | |].
    + rewrite Hr, Z.eqb_refl.
      destruct (starts_with sub (d :: rest)) eqn:E.
      * right. exists O. repeat split; [lia | assumption |].
        intros [|j] Hj; [lia | apply Hnone].
      * left. split; [reflexivity|].
        intros [|j]; [assumption | apply Hnone].
    + rewrite Hr. destruct (Z.eqb_spec (i + 1 + Z.of_nat k) (-1)); [lia|].
      right. exists (S k). repeat split; [lia | assumption |].
      intros [|j] Hj; [lia | apply Hmax; lia].
Qed.

(** [rfind]: [-1] when [sub] does not occur, otherwise its last
    occurrence. *)
Lemma bytes_rfind_spec data sub :
  sub <> [] ->
  (bytes_rfind data sub = -1 /\ forall o, ~ occurs_at sub data o)
  \/ (occurs_at sub data (bytes_rfind data sub)
      /\ forall o, occurs_at sub data o -> o <= bytes_rfind data sub).
Proof.
  intros Hsub. unfold bytes_rfind.
  destruct (rfind_from_spec sub data 0 Hsub (Z.le_refl 0))
    as [[Hr Hnone] | [k (Hr & Hk & Hmax)]].
  - left. split; [assumption|]. intros o Hocc.
    apply occurs_at_starts_with in Hocc as [_ Hocc].
    rewrite Hnone in Hocc. discriminate.
  - right. rewrite Hr. split.
    + apply occurs_at_starts_with. split; [lia|].
      now replace (Z.to_nat (0 + Z.of_nat k)) with k by lia.
    + intros o Hocc. apply occurs_at_starts_with in Hocc as [Ho Hocc].
      destruct (Z.le_gt_cases o (0 + Z.of_nat k)); [assumption|].
      rewrite Hmax in Hocc by lia. discriminate.
Qed.

(** ** The signature scanner *)

Lemma scan_loop_step data sig found offset :
  scan_loop data sig found offset =
  let r := bytes_find data sig offset in
  if r =? -1 then found else scan_loop data sig (found ++ [r]) (r + 4).
Proof.
  rewrite scan_loop_equation_1. cbv zeta.
  destruct (inspect (bytes_find data sig offset =? -1)) as [[|] e];
    simpl; rewrite e; reflexivity.
Qed.

Lemma self_avoiding_nonempty sig : self_avoiding sig -> sig <> [].
Proof. destruct sig; [contradiction | discriminate]. Qed.

Lemma self_avoiding_LOCAL_FILE_HEADER : self_avoiding LOCAL_FILE_HEADER.
Proof.
  split; [|simpl; lia]. simpl. intros [H | [H | [H | []]]]; discriminate.
Qed.

Lemma self_avoiding_CENTRAL_DIR_HEADER : self_avoiding CENTRAL_DIR_HEADER.
Proof.
  split; [|simpl; lia]. simpl. intros [H | [H | [H | []]]]; discriminate.
Qed.

Lemma no_overlap sig data r o :
  self_avoiding sig -> occurs_at sig data r -> occurs_at sig data o ->
  r < o < r + 4 -> False.
Proof.
  destruct sig as [|first others]; [contradiction|].
  intros [Hfresh Hlong] Hr Ho Hnear.
  pose proof (proj1 Hr) as Hr0.
  apply (occurs_at_nth_error _ _ _ O) in Ho; [|simpl; lia].
  apply (occurs_at_nth_error _ _ _ (S (Z.to_nat (o - r - 1)))) in Hr;
    [|simpl; lia].
  replace (Z.to_nat r + S (Z.to_nat (o - r - 1)))%nat
    with (Z.to_nat o + 0)%nat in Hr by lia.
  rewrite Ho in Hr. simpl in Hr. symmetry in Hr.
  apply nth_error_In in Hr. contradiction.
Qed.

(** The loop appends to [found] the occurrences of [sig] at or after
    [offset], in ascending order. *)
Lemma scan_loop_spec data sig :
  self_avoiding sig ->
  forall (m : nat) offset found,
    0 <= offset -> (Z.to_nat (len data + 1 - offset) < m)%nat ->
    exists l,
      scan_loop data sig found offset = found ++ l
      /\ StronglySorted Z.lt l
      /\ forall o, In o l <-> offset <= o /\ occurs_at sig data o.
Proof.
  intros Hsig. pose proof (self_avoiding_nonempty sig Hsig) as Hne.
  induction m as [|m IH]; intros offset found Hoff Hm; [lia|].
  rewrite scan_loop_step. cbv zeta.
  destruct (bytes_find_spec data sig offset Hne Hoff)
    as [[Hr Hnone] | (Hge & Hocc & Hmin)].
  - rewrite Hr. exists []. rewrite app_nil_r.
    repeat split; try constructor; try contradiction.
    intros [Ho Hocc]. exact (Hnone o Ho Hocc).
  - set (r := bytes_find data sig offset) in *.
    destruct (Z.eqb_spec r (-1)) as [|_]; [lia|].
    pose proof (occurs_at_inside sig data r Hne Hocc) as Hin.
    assert (Hlen : 4 <= len sig).
    { destruct sig; [contradiction|]. destruct Hsig as [_ Hl].
      unfold len. simpl. lia. }
    destruct (IH (r + 4) (found ++ [r])) as (l & Hl & Hsorted & Hmem);
      [lia | lia |].
    exists (r :: l). split; [|split].
    + rewrite Hl, <- app_assoc. reflexivity.
    + constructor; [assumption|].
      apply Forall_forall. intros o Ho. apply Hmem in Ho. lia.
    + intros o. simpl. rewrite Hmem. split.
      * intros [<- | [Ho Hoo]]; split; (assumption || lia).
      * intros [Ho Hoo].
        destruct (Z.eq_dec r o) as [|Hneq]; [now left | right].
        split; [|assumption].
        destruct (Z.le_gt_cases (r + 4) o) as [|Hnear]; [assumption|].
        exfalso. destruct (Z.le_gt_cases r o).
        -- apply (no_overlap sig data r o Hsig Hocc Hoo). lia.
        -- apply (Hmin o); [lia | assumption].
Qed.

Lemma scan_loop_from_start data sig :
  self_avoiding sig ->
  StronglySorted Z.lt (scan_loop data sig [] 0)
  /\ forall o, In o (scan_loop data sig [] 0) <-> occurs_at sig data o.
Proof.
  intros Hsig. pose proof (len_nonneg data) as Hn.
  destruct (scan_loop_spec data sig Hsig
              (S (Z.to_nat (len data + 1))) 0 [])
    as (l & Hl & Hsorted & Hmem); [lia | lia |].
  rewrite Hl. simpl. split; [assumption|].
  intros o. rewrite Hmem. unfold occurs_at. tauto.
Qed.

(** A strictly ascending list has no duplicates. *)
Lemma StronglySorted_lt_NoDup (l : list Z) :
  StronglySorted Z.lt l -> NoDup l.
Proof.
  induction 1 as [|a l Hs IH Hall]; constructor; [|assumption].
  intros Hin. rewrite Forall_forall in Hall. specialize (Hall a Hin). lia.
Qed.

Lemma local_headers_spec data :
  StronglySorted Z.lt (local_headers (find_file_signatures data))
  /\ forall o, In o (local_headers (find_file_signatures data))
               <-> occurs_at LOCAL_FILE_HEADER data o.
Proof. apply scan_loop_from_start, self_avoiding_LOCAL_FILE_HEADER. Qed.

Lemma end_of_central_dir_spec data :
  match end_of_central_dir (find_file_signatures data) with
  | Some o => occurs_at END_OF_CENTRAL_DIR data o
              /\ forall o', occurs_at END_OF_CENTRAL_DIR data o' -> o' <= o
  | None => forall o, ~ occurs_at END_OF_CENTRAL_DIR data o
  end.
Proof.
  unfold find_file_signatures. cbn [end_of_central_dir].
  destruct (bytes_rfind_spec data END_OF_CENTRAL_DIR)
    as [[Hr Hnone] | [Hocc Hmax]]; [discriminate | |].
  - rewrite Hr. exact Hnone.
  - destruct (Z.eqb_spec (bytes_rfind data END_OF_CENTRAL_DIR) (-1)) as [E|_].
    + rewrite E in Hocc. destruct Hocc. lia.
    + split; assumption.
Qed.

Lemma central_dir_headers_spec data :
  StronglySorted Z.lt (central_dir_headers (find_file_signatures data))
  /\ forall o, In o (central_dir_headers (find_file_signatures data))
               <-> occurs_at CENTRAL_DIR_HEADER data o.
Proof. apply scan_loop_from_start, self_avoiding_CENTRAL_DIR_HEADER. Qed.

(** C3.  For every buffer the scanner returns exactly the offsets at which
    the local-file-header magic occurs, strictly ascending and hence
    without repetition; likewise for the central-directory-header magic;
    and the end-of-central-directory field is the offset of the last
    occurrence of its magic, or absent when the magic does not occur. *)
Theorem scanner_finds_exactly_the_signatures (data : bytes) :
  (StronglySorted Z.lt (local_headers (find_file_signatures data))
   /\ NoDup (local_headers (find_file_signatures data))
   /\ forall o, In o (local_headers (find_file_signatures data))
                <-> occurs_at LOCAL_FILE_HEADER data o)
  /\ (StronglySorted Z.lt (central_dir_headers (find_file_signatures data))
      /\ NoDup (central_dir_headers (find_file_signatures data))
      /\ forall o, In o (central_dir_headers (find_file_signatures data))
                   <-> occurs_at CENTRAL_DIR_HEADER data o)
  /\ match end_of_central_dir (find_file_signatures data) with
     | Some last =>
         occurs_at END_OF_CENTRAL_DIR data last
         /\ forall o, occurs_at END_OF_CENTRAL_DIR data o -> o <= last
     | None => forall o, ~ occurs_at END_OF_CENTRAL_DIR data o
     end.
Proof.
  destruct (local_headers_spec data) as [Hl_sorted Hl_mem].
  destruct (central_dir_headers_spec data) as [Hc_sorted Hc_mem].
  repeat split;
    try assumption;
    try (now apply StronglySorted_lt_NoDup);
    try (now apply Hl_mem); try (now apply Hc_mem).
  apply end_of_central_dir_spec.
Qed.

Example signatures_of_a_small_archive :
  find_file_signatures
    (two_entry_buffer ++ END_OF_CENTRAL_DIR ++ CENTRAL_DIR_HEADER
     ++ END_OF_CENTRAL_DIR)
  = {| local_headers := [0; 35];
       central_dir_headers := [85];
       end_of_central_dir := Some 89 |}.
Proof. vm_compute. reflexivity. Qed.

(** ** The next header *)

Lemma find_next_offset_some headers offset next :
  StronglySorted Z.lt headers ->
  find_next_offset headers offset = Some next ->
  In next headers /\ offset < next
  /\ forall h, In h headers -> offset < h -> next <= h.
Proof.
  unfold find_next_offset.
  induction 1 as [|a l Hs IH Hall]; simpl; [discriminate|].
  destruct (Z.ltb_spec offset a) as [Hlt | Hge].
  - intros [= <-]. split; [now left|]. split; [assumption|].
    rewrite Forall_forall in Hall.
    intros h [<- | Hh] _; [lia | specialize (Hall h Hh); lia].
  - intros Hfind. destruct (IH Hfind) as (Hin & Hlt & Hleast).
    split; [now right|]. split; [assumption|].
    intros h [<- | Hh] Hoh; [lia | now apply Hleast].
Qed.

Lemma find_next_offset_none headers offset :
  find_next_offset headers offset = None <->
  forall h, In h headers -> h <= offset.
Proof.
  unfold find_next_offset. split.
  - intros Hnone h Hh.
    pose proof (find_none _ _ Hnone h Hh) as Hcmp. simpl in Hcmp.
    destruct (Z.ltb_spec offset h); [discriminate | assumption].
  - intros Hall.
    destruct (find _ headers) as [n|] eqn:Hfind; [|reflexivity].
    apply find_some in Hfind as [Hin Hcmp].
    specialize (Hall n Hin).
    destruct (Z.ltb_spec offset n); [lia | discriminate].
Qed.

(** ** The loop is equal to its summary *)

Section SummaryCorrect.

Context {C : Collaborators}.

Lemma set_filename_length_same (s : frame) :
  set_filename_length (filename_length s) s = s.
Proof. now destruct s. Qed.

Lemma header_branch_summary data offset (stop : Z -> Z) (s : frame) :
  bind (eval (unpack_H (slice data (offset + 26) (offset + 28))))
    (fun fnl =>
       bind (assign_filename_length fnl)
         (fun _ =>
            bind (eval (unpack_H (slice data (offset + 28) (offset + 30))))
              (fun efl =>
                 ret (slice data (offset + 30 + fnl + efl)
                        (stop (offset + 30 + fnl + efl)))))) s
  = (slice_span data
       (fst (header_span data offset stop (filename_length s))),
     set_filename_length
       (snd (header_span data offset stop (filename_length s))) s).
Proof.
  unfold header_span, bind, eval, assign_filename_length, ret.
  destruct (unpack_H (slice data (offset + 26) (offset + 28))) as [e | fnl];
    cbn.
  - now rewrite set_filename_length_same.
  - destruct (unpack_H (slice data (offset + 28) (offset + 30)));
      reflexivity.
Qed.

Lemma one_mib_branch_summary data offset (s : frame) :
  one_mib_branch data offset s
  = (slice_span data
       (fst (header_span data offset (fun start => start + 1024 * 1024)
               (filename_length s))),
     set_filename_length
       (snd (header_span data offset (fun start => start + 1024 * 1024)
               (filename_length s))) s).
Proof. apply (header_branch_summary data offset (fun a => a + 1024 * 1024)). Qed.

Lemma next_header_branch_summary data offset next (s : frame) :
  next_header_branch data offset next s
  = (slice_span data
       (fst (header_span data offset (fun _ => next) (filename_length s))),
     set_filename_length
       (snd (header_span data offset (fun _ => next) (filename_length s))) s).
Proof. apply (header_branch_summary data offset (fun _ => next)). Qed.

Lemma declared_size_branch_summary data offset (s : frame) :
  declared_size_branch data offset s
  = (slice_span data (declared_size_span data offset (filename_length s)), s).
Proof.
  unfold declared_size_branch, declared_size_span, bind, eval,
    read_filename_length, ret.
  destruct (unpack_I _); [reflexivity|].
  destruct (unpack_H _); [reflexivity|].
  destruct (filename_length s); reflexivity.
Qed.

Lemma compute_file_data_summary data offset next (s : frame) :
  compute_file_data data offset next s
  = (slice_span data (fst (payload_span data offset next (filename_length s))),
     set_filename_length
       (snd (payload_span data offset next (filename_length s))) s).
Proof.
  destruct next as [next|]; cbn [compute_file_data payload_span].
  - apply next_header_branch_summary.
  - unfold try_except. rewrite declared_size_branch_summary.
    destruct (declared_size_span data offset (filename_length s))
      as [e | [start stop]]; cbn [slice_span fst snd].
    + apply one_mib_branch_summary.
    + now rewrite set_filename_length_same.
Qed.

Lemma loop_body_summary data headers i offset (s : frame) :
  let sp := payload_span data offset (find_next_offset headers offset)
              (filename_length s) in
  let o := {| outcome_offset := offset;
              outcome_name :=
                resolve_filename (extract_filename_from_header data offset) i;
              outcome_span := fst sp |} in
  loop_body data headers i offset s
  = (inr tt,
     {| filename_length := snd sp;
        new_zip := fst (commit_one data o (new_zip s) (stdout s));
        stdout := snd (commit_one data o (new_zip s) (stdout s)) |}).
Proof.
  cbv zeta. unfold loop_body, try_except, process_entry, bind.
  rewrite compute_file_data_summary.
  unfold commit_one. cbn [outcome_span outcome_offset outcome_name].
  destruct (payload_span _ _ _ _) as [[e | [start stop]] fl]; cbn.
  - reflexivity.
  - unfold new_zip_writestr. cbn.
    destruct (writestr _ _ _) as [[e|] z']; reflexivity.
Qed.

Lemma for_enumerate_summary data headers l : forall i (s : frame),
  exists fl,
    for_enumerate (loop_body data headers) i l s
    = (inr tt,
       {| filename_length := fl;
          new_zip := fst (commit data
                            (outcomes data headers i l (filename_length s))
                            (new_zip s) (stdout s));
          stdout := snd (commit data
                           (outcomes data headers i l (filename_length s))
                           (new_zip s) (stdout s)) |}).
Proof.
  induction l as [|offset rest IH]; intros i s.
  - exists (filename_length s). now destruct s.
  - cbn [for_enumerate outcomes commit]. unfold bind at 1.
    rewrite loop_body_summary. cbv zeta.
    destruct (payload_span _ _ _ _) as [sp fl'] eqn:Hsp.
    cbn [fst snd commit].
    destruct (commit_one _ _ _ _) as [z' out'] eqn:Hone.
    cbn [fst snd].
    destruct (IH (S i) {| filename_length := fl'; new_zip := z';
                          stdout := out' |}) as [fl Hrest].
    exists fl. exact Hrest.
Qed.

End SummaryCorrect.

(** ** The whole run *)

Section Run.

Context {C : Collaborators}.

Lemma repair_zip_summary data (w : world) :
  repair_zip data w
  = match local_headers (find_file_signatures data) with
    | [] => (inr false,
             {| output_file := output_file w;
                console := console w ++ [NoHeadersFound] |})
    | _ :: _ =>
        let done :=
          commit data (run_outcomes data) ZipFile_w
            (console w
             ++ [FoundEntries
                   (List.length (local_headers (find_file_signatures data)))])
        in (inr true,
            {| output_file := Some (fst done);
               console := snd done ++ [RepairCompleted] |})
    end.
Proof.
  unfold repair_zip, run_outcomes.
  destruct (local_headers (find_file_signatures data)) as [|h t] eqn:Hh;
    [reflexivity|].
  match goal with
  | |- context [for_enumerate ?b ?i ?l ?s] =>
      destruct (for_enumerate_summary data (h :: t) (h :: t) i s) as [fl ->]
  end.
  reflexivity.
Qed.

Lemma no_local_header_iff data :
  local_headers (find_file_signatures data) = []
  <-> forall o, ~ occurs_at LOCAL_FILE_HEADER data o.
Proof.
  destruct (local_headers_spec data) as [_ Hmem]. split.
  - intros Hnil o Hocc. apply Hmem in Hocc. now rewrite Hnil in Hocc.
  - intros Hnone.
    destruct (local_headers (find_file_signatures data)) as [|h t];
      [reflexivity|].
    exfalso. apply (Hnone h), Hmem. now left.
Qed.

Lemma outcomes_offsets data headers l : forall i fl,
  map outcome_offset (outcomes data headers i l fl) = l.
Proof.
  induction l as [|offset rest IH]; intros i fl; cbn [outcomes map];
    [reflexivity|].
  destruct (payload_span _ _ _ _) as [sp fl']. cbn. now rewrite IH.
Qed.

Lemma commit_one_console data o z out :
  exists m, snd (commit_one data o z out) = out ++ [m] /\ reports o m.
Proof.
  unfold commit_one, reports.
  destruct (outcome_span o) as [e | [start stop]]; cbn.
  - eexists; split; [reflexivity | right; now exists e].
  - destruct (writestr _ _ _) as [[e|] z']; cbn;
      eexists; (split; [reflexivity|]); [right; now exists e | now left].
Qed.

Lemma commit_console data plan : forall z out,
  exists ms, snd (commit data plan z out) = out ++ ms
             /\ Forall2 reports plan ms.
Proof.
  induction plan as [|o rest IH]; intros z out; cbn [commit].
  - exists []. split; [now rewrite app_nil_r | constructor].
  - destruct (commit_one_console data o z out) as (m & Hm & Hrep).
    destruct (commit_one data o z out) as [z' out']. cbn in Hm. subst out'.
    destruct (IH z' (out ++ [m])) as (ms & Hms & Hall).
    exists (m :: ms). split.
    + rewrite Hms, <- app_assoc. reflexivity.
    + now constructor.
Qed.

End Run.

(** C4.  The repair pass returns [False] exactly when the buffer holds no
    local-file-header signature, and then leaves the output path as it
    was; it returns [True] exactly when at least one signature occurs, and
    then an archive has been created, whatever became of the entries. *)
Theorem repair_fails_exactly_without_local_header
    {C : Collaborators} (data : bytes) (w : world) :
  (fst (repair_zip data w) = inr false
   <-> forall o, ~ occurs_at LOCAL_FILE_HEADER data o)
  /\ (fst (repair_zip data w) = inr true
      <-> exists o, occurs_at LOCAL_FILE_HEADER data o)
  /\ (fst (repair_zip data w) = inr false
      -> output_file (snd (repair_zip data w)) = output_file w)
  /\ (fst (repair_zip data w) = inr true
      -> exists z, output_file (snd (repair_zip data w)) = Some z).
Proof.
  rewrite repair_zip_summary.
  pose proof (no_local_header_iff data) as Hnone.
  destruct (local_headers_spec data) as [_ Hmem].
  destruct (local_headers (find_file_signatures data)) as [|h t]; cbn.
  - repeat split; try discriminate; try reflexivity.
    + intros _. now apply Hnone.
    + intros [o Ho]. exfalso. now apply (proj1 Hnone eq_refl o).
  - repeat split; try discriminate; try reflexivity.
    + intros Hno. apply Hnone in Hno. discriminate.
    + intros _. exists h. apply Hmem. now left.
    + intros _. eexists. reflexivity.
Qed.

(** An archive is created, and the verdict is [True], even when no entry
    could be written: two signatures and nothing else. *)
Example repair_succeeds_with_no_entry_written :
  repair_zip (C := recording)
    (LOCAL_FILE_HEADER ++ LOCAL_FILE_HEADER) fresh_world
  = (inr true,
     {| output_file := Some (archive []);
        console := [FoundEntries 2; ErrorProcessing 0 StructError;
                    ErrorProcessing 4 StructError; RepairCompleted] |}).
Proof. vm_compute. reflexivity. Qed.

(** One iteration never raises: an exception of [process_entry] ends up on
    the console, next to the offset of the entry. *)
Lemma loop_body_catches {C : Collaborators} data headers i offset
    (s : frame) :
  match process_entry data headers i offset s with
  | (inr _, s') => loop_body data headers i offset s = (inr tt, s')
  | (inl e, s') =>
      loop_body data headers i offset s
      = (inr tt,
         {| filename_length := filename_length s';
            new_zip := new_zip s';
            stdout := stdout s' ++ [ErrorProcessing offset e] |})
  end.
Proof.
  unfold loop_body, try_except.
  destruct (process_entry data headers i offset s) as [[e | []] s'];
    reflexivity.
Qed.

(** C7.  Whenever the loop runs, every iteration ends normally: what
    [process_entry] raises while the entry is read, sliced or written is
    caught and printed with the offset of the entry.  The console holds
    one report per local header, in the order of the headers, which is the
    name of the entry or its offset with the exception; and the verdict is
    [True]. *)
Theorem entry_failures_do_not_stop_the_run
    {C : Collaborators} (data : bytes) (w : world) :
  local_headers (find_file_signatures data) <> [] ->
  (forall i offset (s : frame),
      match process_entry data (local_headers (find_file_signatures data))
              i offset s with
      | (inr _, s') =>
          loop_body data (local_headers (find_file_signatures data))
            i offset s = (inr tt, s')
      | (inl e, s') =>
          loop_body data (local_headers (find_file_signatures data))
            i offset s
          = (inr tt,
             {| filename_length := filename_length s';
                new_zip := new_zip s';
                stdout := stdout s' ++ [ErrorProcessing offset e] |})
      end)
  /\ exists z ms,
      repair_zip data w
      = (inr true,
         {| output_file := Some z;
            console :=
              (console w
               ++ [FoundEntries
                     (List.length (local_headers (find_file_signatures data)))])
              ++ ms ++ [RepairCompleted] |})
      /\ Forall2 reports (run_outcomes data) ms
      /\ map outcome_offset (run_outcomes data)
         = local_headers (find_file_signatures data).
Proof.
  intros Hsome. split.
  - intros i offset s. apply loop_body_catches.
  - rewrite repair_zip_summary.
    destruct (local_headers (find_file_signatures data)) as [|h t] eqn:Hh;
      [congruence|].
    cbv zeta.
    match goal with
    | |- context [commit data ?plan ?z ?out] =>
        destruct (commit_console data plan z out) as (ms & Hms & Hall)
    end.
    eexists. exists ms. split; [|split].
    + rewrite Hms, <- app_assoc. reflexivity.
    + exact Hall.
    + unfold run_outcomes. rewrite Hh. apply outcomes_offsets.
Qed.

(** A run in which the writer refuses the second entry. *)
Lemma entry_failures_do_not_stop_the_run_witness :
  local_headers
    (find_file_signatures
       (local_header (ascii_bytes "a") 1 [] ++ ascii_bytes "x"
        ++ local_header (ascii_bytes "b") 1 [] ++ ascii_bytes "y")) <> []
  /\ exists z ms,
      repair_zip (C := bounded 1)
        (local_header (ascii_bytes "a") 1 [] ++ ascii_bytes "x"
         ++ local_header (ascii_bytes "b") 1 [] ++ ascii_bytes "y")
        fresh_world
      = (inr true,
         {| output_file := Some z;
            console := ([] ++ [FoundEntries 2]) ++ ms ++ [RepairCompleted] |}).
Proof.
  assert (H : local_headers
    (find_file_signatures
       (local_header (ascii_bytes "a") 1 [] ++ ascii_bytes "x"
        ++ local_header (ascii_bytes "b") 1 [] ++ ascii_bytes "y")) <> [])
    by (vm_compute; discriminate).
  split; [exact H|].
  destruct (entry_failures_do_not_stop_the_run (C := bounded 1) _
              fresh_world H) as (_ & z & ms & Hrun & _).
  exists z, ms. exact Hrun.
Defined.

(** ** Determinism *)

(** The archive that [commit] builds does not depend on the console. *)
Lemma commit_archive_console {C : Collaborators} data plan :
  forall z out out',
    fst (commit data plan z out) = fst (commit data plan z out').
Proof.
  induction plan as [|o rest IH]; intros z out out'; cbn [commit];
    [reflexivity|].
  unfold commit_one.
  destruct (outcome_span o) as [e | [start stop]].
  - apply IH.
  - destruct (writestr _ _ _) as [[e|] z']; apply IH.
Qed.

(** The outcomes depend on the collaborators through the decoder only. *)
Lemma outcomes_decoder (C1 C2 : Collaborators) data headers l :
  (forall b, @decode_utf8_replace C1 b = @decode_utf8_replace C2 b) ->
  forall i fl,
    @outcomes C1 data headers i l fl = @outcomes C2 data headers i l fl.
Proof.
  intros Hdec. induction l as [|offset rest IH]; intros i fl;
    cbn [outcomes]; [reflexivity|].
  destruct (payload_span _ _ _ _) as [sp fl'].
  rewrite IH. unfold extract_filename_from_header.
  destruct (unpack_H _); [reflexivity|]. now rewrite Hdec.
Qed.

(** With the recording archive every computed pair is stored. *)
Lemma commit_recording data plan : forall z out,
  fst (commit (C := recording) data plan z out)
  = z ++ flat_map (fun o => match outcome_span o with
                            | inr (start, stop) =>
                                [(outcome_name o, slice data start stop)]
                            | inl _ => []
                            end) plan.
Proof.
  induction plan as [|o rest IH]; intros z out; cbn [commit flat_map].
  - now rewrite app_nil_r.
  - unfold commit_one.
    destruct (outcome_span o) as [e | [start stop]]; cbn.
    + apply IH.
    + rewrite IH, <- app_assoc. reflexivity.
Qed.

(** C8.  The recovered (filename, payload) pairs are a function of the
    buffer alone.  From any two worlds the verdict is the same and, when an
    archive is written, the archive is the same; in particular a second
    run after the first reproduces it.  The pairs do not depend on the
    writer, and with the recording archive the archive is the list
    [recovered_pairs data]. *)
Theorem repair_is_a_function_of_the_buffer
    {C : Collaborators} (data : bytes) (w w' : world) :
  fst (repair_zip data w) = fst (repair_zip data w')
  /\ (fst (repair_zip data w) = inr true
      -> output_file (snd (repair_zip data w))
         = output_file (snd (repair_zip data w')))
  /\ output_file (snd (repair_zip data (snd (repair_zip data w))))
     = output_file (snd (repair_zip data w))
  /\ (forall C' : Collaborators,
         (forall b, @decode_utf8_replace C' b = @decode_utf8_replace C b)
         -> @recovered_pairs C' data = @recovered_pairs C data)
  /\ (fst (repair_zip (C := recording) data fresh_world) = inr true
      -> output_file (snd (repair_zip (C := recording) data fresh_world))
         = Some (recovered_pairs (C := recording) data)).
Proof.
  assert (Hpairs : forall C' : Collaborators,
    (forall b, @decode_utf8_replace C' b = @decode_utf8_replace C b)
    -> @recovered_pairs C' data = @recovered_pairs C data).
  { intros C' Hdec. unfold recovered_pairs, run_outcomes.
    now rewrite (outcomes_decoder C' C). }
  rewrite !repair_zip_summary.
  destruct (local_headers (find_file_signatures data)) as [|h t] eqn:Hh;
    cbv zeta; cbn [fst snd output_file].
  - repeat split; try discriminate; try reflexivity; assumption.
  - repeat split; try assumption.
    + intros _. f_equal. apply commit_archive_console.
    + f_equal. apply commit_archive_console.
    + intros _. unfold recovered_pairs. now rewrite commit_recording.
Qed.

(** ** File names *)

Lemma text_of_string_inj s s' :
  text_of_string s = text_of_string s' -> s = s'.
Proof.
  unfold text_of_string. intros H.
  rewrite <- (string_of_list_ascii_of_string s),
          <- (string_of_list_ascii_of_string s').
  f_equal. revert H.
  generalize (list_ascii_of_string s') as l'.
  induction (list_ascii_of_string s) as [|a l IH]; intros [|a' l']; cbn;
    try discriminate; [reflexivity|].
  intros [= Ha Hl]. f_equal; [|now apply IH].
  apply N2Z.inj in Ha.
  rewrite <- (ascii_N_embedding a), <- (ascii_N_embedding a').
  now rewrite Ha.
Qed.

Lemma str_of_nat_inj i j : str_of_nat i = str_of_nat j -> i = j.
Proof.
  unfold str_of_nat. intros H. apply text_of_string_inj in H.
  assert (Hnonnil : forall n, Nat.to_uint n <> Decimal.Nil).
  { intros n Hn. pose proof (DecimalNat.Unsigned.of_to n) as Hof.
    rewrite Hn in Hof. cbn in Hof. subst n. discriminate. }
  apply DecimalNat.Unsigned.to_uint_inj.
  pose proof (NilZero.usu (Nat.to_uint i) (Hnonnil i)) as Hi.
  pose proof (NilZero.usu (Nat.to_uint j) (Hnonnil j)) as Hj.
  rewrite H in Hi. congruence.
Qed.

Lemma recovered_name_inj i j : recovered_name i = recovered_name j -> i = j.
Proof.
  unfold recovered_name. intros H.
  apply app_inv_head, app_inv_tail in H. now apply str_of_nat_inj.
Qed.

(** ** The outcomes, entry by entry *)

Lemma header_span_read_from_field data offset stop fl :
  read_from_field fl ->
  read_from_field (snd (header_span data offset stop fl)).
Proof.
  intros Hfl. unfold header_span.
  destruct (unpack_H (slice data (offset + 26) (offset + 28)))
    as [e | fnl] eqn:Hf; [assumption|].
  assert (0 <= fnl) by (apply unpack_H_range in Hf; lia).
  destruct (unpack_H (slice data (offset + 28) (offset + 30))); assumption.
Qed.

Lemma payload_span_read_from_field data offset next fl :
  read_from_field fl ->
  read_from_field (snd (payload_span data offset next fl)).
Proof.
  intros Hfl. destruct next as [next|]; cbn [payload_span].
  - now apply header_span_read_from_field.
  - destruct (declared_size_span data offset fl); [|assumption].
    now apply header_span_read_from_field.
Qed.

Lemma outcomes_nth_error {C : Collaborators} data headers l :
  forall i fl k o,
    read_from_field fl ->
    nth_error (outcomes data headers i l fl) k = Some o ->
    exists fl_k,
      read_from_field fl_k
      /\ nth_error l k = Some (outcome_offset o)
      /\ outcome_name o
         = resolve_filename
             (extract_filename_from_header data (outcome_offset o))
             (i + k)
      /\ outcome_span o
         = fst (payload_span data (outcome_offset o)
                  (find_next_offset headers (outcome_offset o)) fl_k).
Proof.
  induction l as [|offset rest IH]; intros i fl k o Hfl Hnth.
  - destruct k; discriminate.
  - cbn [outcomes] in Hnth.
    pose proof (payload_span_read_from_field data offset
                  (find_next_offset headers offset) fl Hfl) as Hfl'.
    destruct (payload_span data offset (find_next_offset headers offset) fl)
      as [sp fl'] eqn:Hsp.
    destruct k as [|k]; cbn [nth_error] in *.
    + injection Hnth as <-. exists fl. cbn.
      rewrite Nat.add_0_r, Hsp. repeat split; assumption || reflexivity.
    + destruct (IH (S i) fl' k o Hfl' Hnth) as (fl_k & H1 & H2 & H3 & H4).
      exists fl_k. repeat split; try assumption.
      rewrite H3. f_equal. lia.
Qed.

(** *** The frame of each iteration *)

Section Iterations.

Context {C : Collaborators}.

Lemma for_enumerate_app (body : nat -> Z -> stmt unit) (l1 l2 : list Z) :
  forall i s,
    for_enumerate body i (l1 ++ l2) s
    = bind (for_enumerate body i l1)
        (fun _ => for_enumerate body (i + List.length l1) l2) s.
Proof.
  induction l1 as [|offset rest IH]; intros i s; cbn [app for_enumerate].
  - unfold bind, ret. cbn [List.length]. now rewrite Nat.add_0_r.
  - unfold bind. destruct (body i offset s) as [[e | u] s1]; [reflexivity|].
    rewrite IH. unfold bind. cbn [List.length].
    now replace (S i + List.length rest)%nat
      with (i + S (List.length rest))%nat by lia.
Qed.

(** The loop reaches the [k]-th offset with the index [k], in the frame
    that the iterations over the first [k] offsets leave. *)
Lemma for_enumerate_nth (body : nat -> Z -> stmt unit) (l : list Z) k offset :
  nth_error l k = Some offset ->
  forall s,
    for_enumerate body 0 l s
    = bind (for_enumerate body 0 (firstn k l))
        (fun _ => bind (body k offset)
                    (fun _ => for_enumerate body (S k) (skipn (S k) l))) s.
Proof.
  intros Hk s.
  assert (Hlen : List.length (firstn k l) = k).
  { apply firstn_length_le. apply Nat.lt_le_incl, nth_error_Some. congruence. }
  assert (Hsplit : l = firstn k l ++ offset :: skipn (S k) l).
  { rewrite <- (firstn_skipn k l) at 1. f_equal.
    clear Hlen. revert k Hk. induction l as [|x l IH]; intros [|k] Hk;
      try discriminate.
    - now injection Hk as ->.
    - cbn [skipn]. now apply IH. }
  rewrite Hsplit at 1. rewrite for_enumerate_app, Hlen. reflexivity.
Qed.

(** Every iteration ends normally and leaves in [filename_length] nothing
    but a value read from a header field. *)
Lemma for_enumerate_frame data headers l : forall i (s : frame),
  read_from_field (filename_length s) ->
  read_from_field
    (filename_length (snd (for_enumerate (loop_body data headers) i l s))).
Proof.
  induction l as [|offset rest IH]; intros i s Hfl; [assumption|].
  cbn [for_enumerate]. unfold bind at 1. rewrite loop_body_summary.
  cbv zeta. apply IH. cbn [filename_length].
  now apply payload_span_read_from_field.
Qed.

End Iterations.

(** ** The replace-mode decoder *)

(** Every step of the decoder consumes between one and four bytes and
    yields one code point: the placeholder for at most three bytes, or a
    code point of the range that UTF-8 encodes in as many bytes as were
    consumed. *)
Lemma utf8_replace_step (b : byte) (t : bytes) :
  exists c n,
    (n <= List.length (b :: t))%nat
    /\ utf8_replace (b :: t) = c :: utf8_replace (skipn n (b :: t))
    /\ ((c = REPLACEMENT_CHARACTER /\ (1 <= n <= 3)%nat)
        \/ (n = 1%nat /\ 0 <= c < 128)
        \/ (n = 2%nat /\ 128 <= c < 2048)
        \/ (n = 3%nat /\ 2048 <= c < 65536)
        \/ (n = 4%nat /\ 65536 <= c < 1114112)).
Proof.
  pose proof (byte_val_range b) as Hb.
  cbn [utf8_replace]. cbv zeta. unfold is_continuation.
  repeat first
    [ match goal with
      | |- context [?x <? ?y] => destruct (Z.ltb_spec x y)
      | |- context [?x <=? ?y] => destruct (Z.leb_spec x y)
      | |- context [?x =? ?y] => destruct (Z.eqb_spec x y)
      end; cbn [negb andb orb]
    | match goal with
      | |- context [match ?l with [] => _ | _ :: _ => _ end] =>
          let b' := fresh "b" in
          destruct l as [|b' l];
          [|pose proof (byte_val_range b')]
      end ];
    first
      [ eexists _, 1%nat; split; [cbn; lia|]; split; [reflexivity|];
        first [ left; split; [reflexivity | lia]
              | right; left; split; [reflexivity | lia] ]
      | eexists _, 2%nat; split; [cbn; lia|]; split; [reflexivity|];
        first [ left; split; [reflexivity | lia]
              | right; right; left; split; [reflexivity | lia] ]
      | eexists _, 3%nat; split; [cbn; lia|]; split; [reflexivity|];
        first [ left; split; [reflexivity | lia]
              | right; right; right; left; split; [reflexivity | lia] ]
      | eexists _, 4%nat; split; [cbn; lia|]; split; [reflexivity|];
        right; right; right; right; split; [reflexivity | lia] ].
Qed.

Lemma utf8_replace_length (name : bytes) :
  (List.length (utf8_replace name) <= List.length name
   <= 4 * List.length (utf8_replace name))%nat.
Proof.
  remember (List.length name) as m eqn:Hm. revert name Hm.
  induction m as [m IH] using lt_wf_ind. intros [|b t] ->.
  - cbn. lia.
  - destruct (utf8_replace_step b t) as (c & n & Hle & -> & Hn).
    assert (1 <= n <= 4)%nat by lia.
    specialize (IH (List.length (skipn n (b :: t)))).
    rewrite length_skipn in IH.
    specialize (IH ltac:(lia) (skipn n (b :: t))).
    rewrite length_skipn in IH. specialize (IH eq_refl).
    cbn [List.length] in *. lia.
Qed.

Lemma utf8_replace_ascii (name : bytes) :
  Forall (fun b => byte_val b < 128) name ->
  utf8_replace name = map byte_val name.
Proof.
  induction 1 as [|b t Hb _ IH]; [reflexivity|].
  cbn [utf8_replace map]. cbv zeta.
  destruct (Z.ltb_spec (byte_val b) 128); [now rewrite IH | lia].
Qed.

(** A byte that cannot start a sequence becomes one placeholder. *)
Lemma utf8_replace_invalid_start (b : byte) (rest : bytes) :
  128 <= byte_val b < 194 \/ 245 <= byte_val b ->
  utf8_replace (b :: rest) = REPLACEMENT_CHARACTER :: utf8_replace rest.
Proof.
  intros Hb. cbn [utf8_replace]. cbv zeta.
  repeat match goal with
         | |- context [?x <? ?y] => destruct (Z.ltb_spec x y); try lia
         end;
    reflexivity.
Qed.

(** The lead byte of a three-byte sequence with its first continuation
    byte, followed by a byte that does not continue the sequence: the two
    bytes become one placeholder, and decoding goes on at the third. *)
Lemma utf8_replace_incomplete (b0 b1 b2 : byte) (rest : bytes) :
  225 <= byte_val b0 < 237 ->
  128 <= byte_val b1 < 192 ->
  byte_val b2 < 128 \/ 192 <= byte_val b2 ->
  utf8_replace (b0 :: b1 :: b2 :: rest)
  = REPLACEMENT_CHARACTER :: utf8_replace (b2 :: rest).
Proof.
  intros H0 H1 H2.
  remember (b2 :: rest) as t2 eqn:Ht2.
  cbn [utf8_replace]. cbv zeta. unfold is_continuation.
  repeat match goal with
         | |- context [?x <? ?y] => destruct (Z.ltb_spec x y); try lia
         | |- context [?x <=? ?y] => destruct (Z.leb_spec x y); try lia
         | |- context [?x =? ?y] => destruct (Z.eqb_spec x y); try lia
         end;
    subst t2; cbv beta iota;
    repeat match goal with
           | |- context [?x <? ?y] => destruct (Z.ltb_spec x y); try lia
           | |- context [?x <=? ?y] => destruct (Z.leb_spec x y); try lia
           end;
    reflexivity.
Qed.

Lemma text_of_string_app (a b : string) :
  text_of_string (a ++ b) = text_of_string a ++ text_of_string b.
Proof.
  unfold text_of_string. induction a as [|c a IH]; [reflexivity|].
  cbn. now rewrite IH.
Qed.

(** The name that lines 81-83 leave in [filename]. *)
Lemma recovered_name_digits (i : nat) :
  exists digits : string,
    recovered_name i
    = text_of_string ("recovered_file_" ++ digits ++ ".bin")
    /\ option_map Nat.of_uint (NilZero.uint_of_string digits) = Some i.
Proof.
  exists (NilZero.string_of_uint (Nat.to_uint i)). split.
  - unfold recovered_name, str_of_nat. now rewrite !text_of_string_app.
  - rewrite NilZero.usu.
    + cbn. now rewrite DecimalNat.Unsigned.of_to.
    + intros Hn. pose proof (DecimalNat.Unsigned.of_to i) as Hof.
      rewrite Hn in Hof. cbn in Hof. subst i. discriminate.
Qed.

(** Two ways in which extraction does not behave as a reading of the whole
    fixed header with one placeholder per invalid byte would.  With 28
    bytes the fixed part of the header is incomplete, yet extraction
    returns the empty text.  And the two bytes [E2 82], the start of a
    three-byte sequence that the end of the name cuts, become one
    placeholder. *)
Lemma extraction_reads_one_field_and_merges_a_cut_sequence :
  (len (firstn 28 (local_header (ascii_bytes "a.txt") 5 [])) < 0 + 30
   /\ extract_filename_from_header (C := recording)
        (firstn 28 (local_header (ascii_bytes "a.txt") 5 [])) 0
      = Some [])
  /\ (len [xe2; x82] = 2
      /\ extract_filename_from_header (C := recording)
           (local_header [xe2; x82] 0 []) 0
         = Some [REPLACEMENT_CHARACTER]).
Proof. vm_compute. repeat split. Qed.

(** C6, amended.  Filename extraction fails exactly when the buffer ends
    before the one fixed field it reads, the 2-byte filename length at
    [offset + 26], is complete, that is when fewer than 28 bytes follow
    the offset.  Otherwise it returns the text that the replace-mode
    decoder makes of the filename bytes, whatever these bytes are.  The
    decoder is total and works in steps: a step turns a well-formed
    sequence of one to four bytes into its code point, or one to three
    bytes into one placeholder.  It leaves ASCII bytes as they are, it
    replaces a byte that cannot start a sequence with one placeholder,
    and it replaces the lead byte of a three-byte sequence together with
    its first continuation byte, when no second one follows, with one
    placeholder for the two.  The entry is then
    processed under the extracted text, or under [recovered_file_<i>.bin]
    when extraction failed or returned the empty text, [i] being the
    decimal numeral of the index that the entry has in the ascending
    sequence of offsets.  The names [recovered_file_<i>.bin] of distinct
    indices are distinct. *)
Theorem filename_extraction_and_fallback_name
    {C : Collaborators} (data : bytes) (offset : Z) :
  0 <= offset ->
  (forall name, decode_utf8_replace name = utf8_replace name) ->
  (extract_filename_from_header data offset = None
   <-> len data < offset + 28)
  /\ (forall filename_length,
         unpack_H (slice data (offset + 26) (offset + 28))
         = inr filename_length ->
         extract_filename_from_header data offset
         = Some (utf8_replace
                   (slice data (offset + 30)
                      (offset + 30 + filename_length))))
  /\ ((forall b rest,
          exists c n,
            (n <= List.length (b :: rest))%nat
            /\ utf8_replace (b :: rest)
               = c :: utf8_replace (skipn n (b :: rest))
            /\ ((c = REPLACEMENT_CHARACTER /\ (1 <= n <= 3)%nat)
                \/ (n = 1%nat /\ 0 <= c < 128)
                \/ (n = 2%nat /\ 128 <= c < 2048)
                \/ (n = 3%nat /\ 2048 <= c < 65536)
                \/ (n = 4%nat /\ 65536 <= c < 1114112)))
      /\ (forall name,
             (List.length (utf8_replace name) <= List.length name
              <= 4 * List.length (utf8_replace name))%nat)
      /\ (forall name,
             Forall (fun b => byte_val b < 128) name ->
             utf8_replace name = map byte_val name)
      /\ (forall b rest,
             128 <= byte_val b < 194 \/ 245 <= byte_val b ->
             utf8_replace (b :: rest)
             = REPLACEMENT_CHARACTER :: utf8_replace rest)
      /\ (forall b0 b1 b2 rest,
             225 <= byte_val b0 < 237 ->
             128 <= byte_val b1 < 192 ->
             byte_val b2 < 128 \/ 192 <= byte_val b2 ->
             utf8_replace (b0 :: b1 :: b2 :: rest)
             = REPLACEMENT_CHARACTER :: utf8_replace (b2 :: rest)))
  /\ (forall headers i s,
         process_entry data headers i offset s
         = bind (compute_file_data data offset
                   (find_next_offset headers offset))
             (fun file_data =>
                bind (new_zip_writestr
                        match extract_filename_from_header data offset with
                        | None | Some [] => recovered_name i
                        | Some name => name
                        end file_data)
                  (fun _ =>
                     print (RecoveredFile
                              match extract_filename_from_header data offset
                              with
                              | None | Some [] => recovered_name i
                              | Some name => name
                              end))) s)
  /\ (forall k z out,
         nth_error (local_headers (find_file_signatures data)) k
         = Some offset ->
         for_enumerate
           (loop_body data (local_headers (find_file_signatures data))) 0
           (local_headers (find_file_signatures data))
           {| filename_length := None; new_zip := z; stdout := out |}
         = bind (for_enumerate
                   (loop_body data (local_headers (find_file_signatures data)))
                   0 (firstn k (local_headers (find_file_signatures data))))
             (fun _ =>
                bind (loop_body data
                        (local_headers (find_file_signatures data)) k offset)
                  (fun _ =>
                     for_enumerate
                       (loop_body data
                          (local_headers (find_file_signatures data)))
                       (S k)
                       (skipn (S k)
                          (local_headers (find_file_signatures data)))))
             {| filename_length := None; new_zip := z; stdout := out |})
  /\ (forall i,
         exists digits : string,
           recovered_name i
           = text_of_string ("recovered_file_" ++ digits ++ ".bin")
           /\ option_map Nat.of_uint (NilZero.uint_of_string digits) = Some i)
  /\ (forall i j, i <> j -> recovered_name i <> recovered_name j).
Proof.
  intros Hoffset Hdecoder.
  split; [|split; [|split; [|split; [|split; [|split]]]]].
  - unfold extract_filename_from_header.
    replace (offset + 28) with (offset + 26 + 2) by lia.
    destruct (Z.le_gt_cases (offset + 26 + 2) (len data)) as [Hin | Hout].
    + destruct (read_H_inside data (offset + 26)) as (v & -> & _);
        [lia | assumption |].
      split; [discriminate | lia].
    + rewrite read_H_outside by lia. split; [lia | reflexivity].
  - intros fnl Hfnl. unfold extract_filename_from_header.
    now rewrite Hfnl, Hdecoder.
  - split; [exact utf8_replace_step|].
    split; [exact utf8_replace_length|].
    split; [exact utf8_replace_ascii|].
    split; [exact utf8_replace_invalid_start | exact utf8_replace_incomplete].
  - intros headers i s. unfold process_entry, resolve_filename.
    destruct (extract_filename_from_header data offset) as [[|c name]|];
      reflexivity.
  - intros k z out Hk. now apply for_enumerate_nth.
  - exact recovered_name_digits.
  - intros i j Hij Heq. apply Hij. now apply recovered_name_inj.
Qed.

Lemma filename_extraction_and_fallback_name_witness :
  0 <= 0
  /\ (forall name, decode_utf8_replace (Collaborators := recording) name
                   = utf8_replace name)
  /\ extract_filename_from_header (C := recording)
       (firstn 27 (local_header (ascii_bytes "a.txt") 5 [])) 0
     = None.
Proof.
  split; [lia|]. split; [reflexivity|].
  apply (proj1 (filename_extraction_and_fallback_name (C := recording)
                  (firstn 27 (local_header (ascii_bytes "a.txt") 5 [])) 0
                  ltac:(lia) (fun _ => eq_refl))).
  vm_compute. reflexivity.
Defined.

(** With 28 bytes after the offset the filename length is readable and
    extraction returns the empty text, although the extra-field length is
    cut off. *)
Example extraction_of_a_28_byte_header :
  extract_filename_from_header (C := recording)
    (firstn 28 (local_header (ascii_bytes "a.txt") 5 [])) 0
  = Some [].
Proof. vm_compute. reflexivity. Qed.

(** The reference decoder on the bytes [E2 82 41 FF]: a truncated
    three-byte sequence becomes one U+FFFD and the invalid byte [FF]
    another. *)
Example utf8_replace_of_ill_formed_bytes :
  utf8_replace [xe2; x82; x41; xff] = [65533; 65; 65533].
Proof. vm_compute. reflexivity. Qed.

Example recovered_name_7 :
  recovered_name 7 = text_of_string "recovered_file_7.bin".
Proof. vm_compute. reflexivity. Qed.

(** ** Which bytes a slice depends on *)

Lemma unpack_H_slice_inside data a b v :
  0 <= a -> b = a + 2 -> unpack_H (slice data a b) = inr v -> b <= len data.
Proof.
  intros Ha -> Hv.
  destruct (Z.le_gt_cases (a + 2) (len data)) as [|Hout]; [assumption|].
  rewrite read_H_outside in Hv by lia. discriminate.
Qed.

Lemma skipn_agree (data data' : bytes) m :
  (forall k, (m <= k)%nat -> nth_error data' k = nth_error data k) ->
  skipn m data' = skipn m data.
Proof.
  intros Hagree. apply nth_error_ext. intros k.
  rewrite !nth_error_skipn. apply Hagree. lia.
Qed.

(** Two buffers of the same length that agree from index [p] on have the
    same slices from [p] on. *)
Lemma slice_agree (data data' : bytes) p a b :
  0 <= p <= a -> 0 <= b -> len data' = len data ->
  (forall k, (Z.to_nat p <= k)%nat -> nth_error data' k = nth_error data k) ->
  slice data' a b = slice data a b.
Proof.
  intros Hpa Hb Hlen Hagree. unfold slice. rewrite Hlen. f_equal.
  apply skipn_agree. intros k Hk.
  rewrite clip_index_nonneg in Hk by lia.
  destruct (Z.le_gt_cases a (len data)).
  - apply Hagree. lia.
  - assert (List.length data <= k)%nat by (unfold len in *; lia).
    assert (List.length data' <= k)%nat by (unfold len in *; lia).
    transitivity (@None byte); [|symmetry]; now apply nth_error_None.
Qed.

(** ** Entries followed by another header *)

Lemma In_local_headers_nonneg data offset :
  In offset (local_headers (find_file_signatures data)) -> 0 <= offset.
Proof.
  intros Hin. apply (proj2 (local_headers_spec data)) in Hin. apply Hin.
Qed.

Lemma header_span_readable data offset stop fl fnl efl :
  unpack_H (slice data (offset + 26) (offset + 28)) = inr fnl ->
  unpack_H (slice data (offset + 28) (offset + 30)) = inr efl ->
  header_span data offset stop fl
  = (inr (offset + 30 + fnl + efl, stop (offset + 30 + fnl + efl)), Some fnl).
Proof. intros Hf He. unfold header_span. now rewrite Hf, He. Qed.

(** C2.  For a local-header offset that is not the last one and whose two
    length fields are readable, [next_offset] is the smallest header
    offset above it and the payload is
    [data[offset + 30 + filename_length + extra_field_length : next_offset]],
    whatever [filename_length] held before.  The computation does not read
    the declared compressed size: it gives the same result on every buffer
    that differs from [data] only in bytes [offset + 18 .. offset + 21]. *)
Theorem payload_of_an_entry_with_a_next_header
    {C : Collaborators} (data : bytes) (i : nat) (offset : Z)
    (name_length extra_length : Z) (s : frame) :
  In offset (local_headers (find_file_signatures data)) ->
  (exists later, In later (local_headers (find_file_signatures data))
                 /\ offset < later) ->
  unpack_H (slice data (offset + 26) (offset + 28)) = inr name_length ->
  unpack_H (slice data (offset + 28) (offset + 30)) = inr extra_length ->
  exists next_offset,
    find_next_offset (local_headers (find_file_signatures data)) offset
    = Some next_offset
    /\ In next_offset (local_headers (find_file_signatures data))
    /\ offset < next_offset
    /\ (forall h, In h (local_headers (find_file_signatures data)) ->
                  offset < h -> next_offset <= h)
    /\ compute_file_data data offset (Some next_offset) s
       = (inr (slice data
                 (offset + 30 + name_length + extra_length)
                 next_offset),
          set_filename_length (Some name_length) s)
    /\ process_entry data (local_headers (find_file_signatures data))
         i offset s
       = (let filename :=
            resolve_filename (extract_filename_from_header data offset) i in
          bind (new_zip_writestr filename
                  (slice data
                     (offset + 30 + name_length + extra_length)
                     next_offset))
               (fun _ => print (RecoveredFile filename)))
           (set_filename_length (Some name_length) s)
    /\ (forall data' : bytes,
           len data' = len data ->
           (forall k : nat,
               ~ (offset + 18 <= Z.of_nat k < offset + 22) ->
               nth_error data' k = nth_error data k) ->
           compute_file_data data' offset (Some next_offset) s
           = compute_file_data data offset (Some next_offset) s).
Proof.
  intros Hin [later [Hlater Hlt]] Hfnl Hefl.
  pose proof (In_local_headers_nonneg data offset Hin) as Hoff.
  destruct (local_headers_spec data) as [Hsorted _].
  destruct (find_next_offset (local_headers (find_file_signatures data))
              offset) as [next|] eqn:Hnext.
  2:{ rewrite find_next_offset_none in Hnext.
      specialize (Hnext later Hlater). lia. }
  destruct (find_next_offset_some _ _ _ Hsorted Hnext)
    as (Hnin & Hnlt & Hleast).
  assert (Hdata : compute_file_data data offset (Some next) s
                  = (inr (slice data
                            (offset + 30 + name_length
                             + extra_length) next),
                     set_filename_length (Some name_length) s)).
  { rewrite compute_file_data_summary. cbn [payload_span].
    now rewrite (header_span_readable data offset _ _ _ _ Hfnl Hefl). }
  exists next. repeat split; try assumption.
  - unfold process_entry. rewrite Hnext. unfold bind at 1.
    now rewrite Hdata.
  - intros data' Hlen Hagree.
    assert (Hsame : forall a b, offset + 22 <= a -> 0 <= b ->
                                slice data' a b = slice data a b).
    { intros a b Ha Hb. apply (slice_agree data data' (offset + 22)); try lia.
      intros k Hk. apply Hagree. lia. }
    rewrite Hdata, compute_file_data_summary. cbn [payload_span].
    unfold header_span. rewrite !Hsame by lia. rewrite Hfnl, Hefl.
    cbn [fst snd slice_span].
    apply unpack_H_range in Hfnl. apply unpack_H_range in Hefl.
    rewrite Hsame by lia. reflexivity.
Qed.

Lemma payload_of_an_entry_with_a_next_header_witness :
  In 0 (local_headers (find_file_signatures two_entry_buffer))
  /\ (exists later,
         In later (local_headers (find_file_signatures two_entry_buffer))
         /\ 0 < later)
  /\ unpack_H (slice two_entry_buffer (0 + 26) (0 + 28)) = inr 2
  /\ unpack_H (slice two_entry_buffer (0 + 28) (0 + 30)) = inr 0
  /\ exists next_offset,
      compute_file_data two_entry_buffer 0 (Some next_offset)
        (entered_frame recording 2)
      = (inr (slice two_entry_buffer (0 + 30 + 2 + 0) next_offset),
         set_filename_length (Some 2) (entered_frame recording 2)).
Proof.
  assert (H1 : In 0 (local_headers (find_file_signatures two_entry_buffer)))
    by (vm_compute; auto).
  assert (H2 : exists later,
             In later (local_headers (find_file_signatures two_entry_buffer))
             /\ 0 < later)
    by (exists 35; vm_compute; auto).
  assert (H3 : unpack_H (slice two_entry_buffer (0 + 26) (0 + 28)) = inr 2)
    by (vm_compute; reflexivity).
  assert (H4 : unpack_H (slice two_entry_buffer (0 + 28) (0 + 30)) = inr 0)
    by (vm_compute; reflexivity).
  repeat (split; [assumption|]).
  destruct (payload_of_an_entry_with_a_next_header (C := recording)
              two_entry_buffer 0 0 2 0 (entered_frame recording 2)
              H1 H2 H3 H4)
    as (next & _ & _ & _ & _ & Hdata & _).
  exists next. exact Hdata.
Defined.

(** ** The last entry *)

Lemma find_next_offset_single offset : find_next_offset [offset] offset = None.
Proof. unfold find_next_offset. cbn. now rewrite Z.ltb_irrefl. Qed.

(** C9.  When the scan finds exactly one local header and its two length
    fields are readable, the declared-size branch raises
    [UnboundLocalError], since [filename_length] is not yet bound, and the
    payload is
    [data[start : start + 1048576]] with
    [start = offset + 30 + filename_length + extra_field_length], that is
    the bytes from [start] to the end of the buffer, at most 1 MiB of
    them.  The declared compressed size plays no part: the result is the
    same on every buffer that differs from [data] only in bytes
    [offset + 18 .. offset + 21]. *)
Theorem single_entry_payload_is_the_one_mib_fallback
    {C : Collaborators} (data : bytes) (w : world) (offset : Z)
    (name_length extra_length : Z) :
  local_headers (find_file_signatures data) = [offset] ->
  unpack_H (slice data (offset + 26) (offset + 28)) = inr name_length ->
  unpack_H (slice data (offset + 28) (offset + 30)) = inr extra_length ->
  let entered :=
    {| filename_length := None; new_zip := ZipFile_w;
       stdout := console w ++ [FoundEntries 1] |} in
  let start := offset + 30 + name_length + extra_length in
  let filename :=
    resolve_filename (extract_filename_from_header data offset) 0 in
  let file_data := slice data start (start + 1024 * 1024) in
  declared_size_branch data offset entered = (inl UnboundLocalError, entered)
  /\ compute_file_data data offset None entered
     = (inr file_data, set_filename_length (Some name_length) entered)
  /\ file_data = firstn (Z.to_nat (1024 * 1024)) (skipn (Z.to_nat start) data)
  /\ repair_zip data w
     = (inr true,
        {| output_file := Some (snd (writestr filename file_data ZipFile_w));
           console :=
             (console w ++ [FoundEntries 1])
             ++ [match fst (writestr filename file_data ZipFile_w) with
                 | None => RecoveredFile filename
                 | Some e => ErrorProcessing offset e
                 end]
             ++ [RepairCompleted] |})
  /\ (forall data' : bytes,
         len data' = len data ->
         (forall k : nat,
             ~ (offset + 18 <= Z.of_nat k < offset + 22) ->
             nth_error data' k = nth_error data k) ->
         compute_file_data data' offset None entered
         = compute_file_data data offset None entered).
Proof.
  intros Hheaders Hfnl Hefl entered start filename file_data.
  assert (Hoff : 0 <= offset).
  { apply (In_local_headers_nonneg data). rewrite Hheaders. now left. }
  pose proof (unpack_H_slice_inside data (offset + 28) (offset + 30)
                extra_length ltac:(lia) ltac:(lia) Hefl) as Hlen.
  assert (Hdeclared : forall d : bytes, len d = len data ->
            unpack_H (slice d (offset + 28) (offset + 30))
            = inr extra_length ->
            declared_size_span d offset None = inl UnboundLocalError).
  { intros d Hd He. unfold declared_size_span.
    replace (offset + 22) with (offset + 18 + 4) by lia.
    destruct (read_I_inside d (offset + 18)) as (cs & -> & _); [lia | lia |].
    now rewrite He. }
  assert (Hdata : compute_file_data data offset None entered
                  = (inr file_data,
                     set_filename_length (Some name_length) entered)).
  { rewrite compute_file_data_summary. cbn [payload_span].
    subst entered. cbn [filename_length].
    rewrite (Hdeclared data eq_refl Hefl).
    now rewrite (header_span_readable data offset _ _ _ _ Hfnl Hefl). }
  pose proof (unpack_H_range _ _ Hfnl) as Hfr.
  pose proof (unpack_H_range _ _ Hefl) as Her.
  split; [|split; [|split; [|split]]].
  - rewrite declared_size_branch_summary. subst entered.
    cbn [filename_length].
    now rewrite (Hdeclared data eq_refl Hefl).
  - exact Hdata.
  - subst file_data. apply slice_firstn_skipn; subst start; lia.
  - rewrite repair_zip_summary. unfold run_outcomes. rewrite Hheaders.
    cbn [outcomes List.length]. rewrite find_next_offset_single.
    cbn [payload_span]. rewrite (Hdeclared data eq_refl Hefl).
    rewrite (header_span_readable data offset _ _ _ _ Hfnl Hefl).
    cbv zeta. cbn [commit]. unfold commit_one.
    cbn [outcome_span outcome_name outcome_offset].
    fold start. fold filename. fold file_data.
    destruct (writestr filename file_data ZipFile_w) as [[e|] z];
      cbn [fst snd]; now rewrite <- app_assoc.
  - intros data' Hlen' Hagree.
    assert (Hsame : forall a b, offset + 22 <= a -> 0 <= b ->
                                slice data' a b = slice data a b).
    { intros a b Ha Hb. apply (slice_agree data data' (offset + 22)); try lia.
      intros k Hk. apply Hagree. lia. }
    rewrite Hdata, compute_file_data_summary. cbn [payload_span].
    subst entered. cbn [filename_length].
    rewrite (Hdeclared data' Hlen') by (now rewrite Hsame by lia).
    unfold header_span. rewrite !Hsame by lia. rewrite Hfnl, Hefl.
    cbn [fst snd slice_span]. subst file_data start.
    rewrite Hsame by lia. reflexivity.
Qed.

Lemma single_entry_payload_is_the_one_mib_fallback_witness :
  local_headers (find_file_signatures single_entry_buffer) = [0]
  /\ unpack_H (slice single_entry_buffer (0 + 26) (0 + 28)) = inr 5
  /\ unpack_H (slice single_entry_buffer (0 + 28) (0 + 30)) = inr 0
  /\ compute_file_data (C := recording) single_entry_buffer 0 None
       {| filename_length := None; new_zip := ZipFile_w;
          stdout := [] ++ [FoundEntries 1] |}
     = (inr (slice single_entry_buffer (0 + 30 + 5 + 0)
               (0 + 30 + 5 + 0 + 1024 * 1024)),
        set_filename_length (Some 5)
          {| filename_length := None; new_zip := ZipFile_w;
             stdout := [] ++ [FoundEntries 1] |}).
Proof.
  assert (H1 : local_headers (find_file_signatures single_entry_buffer) = [0])
    by (vm_compute; reflexivity).
  assert (H2 : unpack_H (slice single_entry_buffer (0 + 26) (0 + 28)) = inr 5)
    by (vm_compute; reflexivity).
  assert (H3 : unpack_H (slice single_entry_buffer (0 + 28) (0 + 30)) = inr 0)
    by (vm_compute; reflexivity).
  repeat (split; [assumption|]).
  exact (proj1 (proj2
           (single_entry_payload_is_the_one_mib_fallback (C := recording)
              single_entry_buffer fresh_world 0 5 0 H1 H2 H3))).
Defined.

(** C1, on [single_entry_buffer].  The header of the only entry is
    readable and declares 5 bytes, which lie inside the buffer at
    [35 .. 39] and are [hello]; the repair pass nevertheless stores every
    byte from 35 to the end of the buffer, the end-of-central-directory
    record included. *)
Theorem declared_size_of_the_last_entry_is_not_used :
  local_headers (find_file_signatures single_entry_buffer) = [0]
  /\ unpack_I (slice single_entry_buffer (0 + 18) (0 + 22)) = inr 5
  /\ unpack_H (slice single_entry_buffer (0 + 26) (0 + 28)) = inr 5
  /\ unpack_H (slice single_entry_buffer (0 + 28) (0 + 30)) = inr 0
  /\ 0 + 30 + 5 + 0 + 5 <= len single_entry_buffer
  /\ slice single_entry_buffer (0 + 30 + 5 + 0) (0 + 30 + 5 + 0 + 5)
     = ascii_bytes "hello"
  /\ repair_zip (C := recording) single_entry_buffer fresh_world
     = (inr true,
        {| output_file :=
             Some (archive
                     [(text_of_string "a.txt",
                       ascii_bytes "hello" ++ empty_end_record)]);
           console := [FoundEntries 1;
                       RecoveredFile (text_of_string "a.txt");
                       RepairCompleted] |})
  /\ ascii_bytes "hello" ++ empty_end_record <> ascii_bytes "hello".
Proof.
  repeat split; try (vm_compute; reflexivity); vm_compute; discriminate.
Qed.

(** When an earlier iteration has bound [filename_length], the
    declared-size branch of the last entry runs with that value, which is
    the filename length of an earlier entry. *)
Lemma declared_size_branch_with_a_bound_filename_length
    {C : Collaborators} data offset (s : frame)
    (previous compressed_size extra_length : Z) :
  filename_length s = Some previous ->
  unpack_I (slice data (offset + 18) (offset + 22)) = inr compressed_size ->
  unpack_H (slice data (offset + 28) (offset + 30)) = inr extra_length ->
  compute_file_data data offset None s
  = (inr (slice data (offset + 30 + previous + extra_length)
            (offset + 30 + previous + extra_length + compressed_size)), s).
Proof.
  intros Hfl Hcs Hefl. rewrite compute_file_data_summary.
  cbn [payload_span]. unfold declared_size_span.
  rewrite Hcs, Hefl, Hfl. cbn [fst snd slice_span].
  now rewrite <- Hfl, set_filename_length_same.
Qed.

(** On [two_entry_buffer] the last entry, [abcd.txt], is cut with the
    filename length 2 of the first entry: its payload starts inside its
    own name and is [cd.t] instead of [wxyz]. *)
Example last_of_two_entries_is_cut_with_a_stale_length :
  repair_zip (C := recording) two_entry_buffer fresh_world
  = (inr true,
     {| output_file :=
          Some (archive
                  [(text_of_string "ab", ascii_bytes "xyz");
                   (text_of_string "abcd.txt", ascii_bytes "cd.t")]);
        console := [FoundEntries 2;
                    RecoveredFile (text_of_string "ab");
                    RecoveredFile (text_of_string "abcd.txt");
                    RepairCompleted] |}).
Proof. vm_compute. reflexivity. Qed.

(** ** Spans *)

(** The bytes of a slice: those at the indices [a <= k < b] that exist. *)
Lemma nth_error_slice (data : bytes) a b (k : nat) :
  0 <= a -> 0 <= b ->
  nth_error (slice data a b) k
  = if a + Z.of_nat k <? b then nth_error data (Z.to_nat a + k) else None.
Proof.
  intros Ha Hb. unfold slice. rewrite !clip_index_nonneg by lia.
  rewrite nth_error_firstn, nth_error_skipn.
  pose proof (len_nonneg data) as Hn. unfold len in *.
  destruct (Nat.ltb_spec k
              (Z.to_nat (Z.min b (Z.of_nat (List.length data))
                         - Z.min a (Z.of_nat (List.length data)))))
    as [Hk | Hk];
    destruct (Z.ltb_spec (a + Z.of_nat k) b) as [Hkb | Hkb];
    try reflexivity.
  - f_equal. lia.
  - lia.
  - symmetry. apply nth_error_None. lia.
Qed.

Lemma header_span_bounds data offset stop fl a b :
  fst (header_span data offset stop fl) = inr (a, b) ->
  offset + 30 <= a /\ b = stop a.
Proof.
  unfold header_span.
  destruct (unpack_H (slice data (offset + 26) (offset + 28)))
    as [e | fnl] eqn:Hf; [discriminate|].
  destruct (unpack_H (slice data (offset + 28) (offset + 30)))
    as [e | efl] eqn:He; [discriminate|].
  cbn. intros [= <- <-].
  apply unpack_H_range in Hf. apply unpack_H_range in He. split; [lia|].
  reflexivity.
Qed.

Lemma declared_size_span_bounds data offset fl a b :
  read_from_field fl ->
  declared_size_span data offset fl = inr (a, b) ->
  offset + 30 <= a /\ a <= b.
Proof.
  intros Hfl. unfold declared_size_span.
  destruct (unpack_I _) as [e | cs] eqn:Hc; [discriminate|].
  destruct (unpack_H _) as [e | efl] eqn:He; [discriminate|].
  destruct fl as [fnl|]; [|discriminate].
  cbn. intros [= <- <-].
  apply unpack_I_range in Hc. apply unpack_H_range in He.
  cbn in Hfl. lia.
Qed.

(** A computed span starts after the fixed part of its header; it stops at
    the next header when there is one, and not before its start
    otherwise. *)
Lemma payload_span_bounds data offset next fl a b :
  read_from_field fl ->
  fst (payload_span data offset next fl) = inr (a, b) ->
  offset + 30 <= a
  /\ match next with
     | Some next_offset => b = next_offset
     | None => a <= b
     end.
Proof.
  intros Hfl. destruct next as [next|]; cbn [payload_span].
  - apply header_span_bounds.
  - destruct (declared_size_span data offset fl) as [e | sp] eqn:Hd.
    + intros Hs. apply header_span_bounds in Hs. lia.
    + cbn. intros [= ->].
      now apply (declared_size_span_bounds data offset fl).
Qed.

(** With both length fields readable, a span is computed. *)
Lemma payload_span_readable data offset next fl fnl efl :
  unpack_H (slice data (offset + 26) (offset + 28)) = inr fnl ->
  unpack_H (slice data (offset + 28) (offset + 30)) = inr efl ->
  exists a b, fst (payload_span data offset next fl) = inr (a, b).
Proof.
  intros Hf He. destruct next as [next|]; cbn [payload_span].
  - rewrite (header_span_readable data offset _ _ _ _ Hf He).
    eexists _, _. reflexivity.
  - destruct (declared_size_span data offset fl) as [e | [a b]].
    + rewrite (header_span_readable data offset _ _ _ _ Hf He).
      eexists _, _. reflexivity.
    + exists a, b. reflexivity.
Qed.

(** A span is computed exactly when the buffer holds the 30 bytes of the
    fixed part of the header; otherwise the read of a length field raises
    [struct.error]. *)
Lemma payload_span_total data offset next fl :
  0 <= offset ->
  (len data < offset + 30
   -> fst (payload_span data offset next fl) = inl StructError)
  /\ (offset + 30 <= len data
      -> exists start stop,
           fst (payload_span data offset next fl) = inr (start, stop)).
Proof.
  intros Hoff. split.
  - intros Hshort.
    assert (Hefl : unpack_H (slice data (offset + 28) (offset + 30))
                   = inl StructError).
    { replace (offset + 30) with (offset + 28 + 2) by lia.
      apply read_H_outside; lia. }
    assert (Hheader : forall stop,
               fst (header_span data offset stop fl) = inl StructError).
    { intros stop. unfold header_span.
      destruct (unpack_H (slice data (offset + 26) (offset + 28)))
        as [e | fnl] eqn:Hf.
      - destruct (Z.le_gt_cases (offset + 26 + 2) (len data)) as [Hin | Hout].
        + replace (offset + 28) with (offset + 26 + 2) in Hf by lia.
          destruct (read_H_inside data (offset + 26)) as (v & Hv & _);
            [lia | assumption | congruence].
        + replace (offset + 28) with (offset + 26 + 2) in Hf by lia.
          rewrite read_H_outside in Hf by lia. now injection Hf as <-.
      - now rewrite Hefl. }
    destruct next as [next|]; cbn [payload_span]; [apply Hheader|].
    assert (Hdeclared : exists e, declared_size_span data offset fl = inl e).
    { unfold declared_size_span.
      destruct (unpack_I _) as [e | cs]; [now exists e|].
      rewrite Hefl. now exists StructError. }
    destruct Hdeclared as [e ->]. apply Hheader.
  - intros Hlong.
    destruct (read_H_inside data (offset + 26)) as (fnl & Hf & _);
      [lia | lia |].
    destruct (read_H_inside data (offset + 28)) as (efl & He & _);
      [lia | lia |].
    replace (offset + 26 + 2) with (offset + 28) in Hf by lia.
    replace (offset + 28 + 2) with (offset + 30) in He by lia.
    now apply (payload_span_readable data offset next fl fnl efl).
Qed.

Lemma StronglySorted_nth_error_lt (l : list Z) :
  StronglySorted Z.lt l ->
  forall i j x y,
    (i < j)%nat -> nth_error l i = Some x -> nth_error l j = Some y -> x < y.
Proof.
  induction 1 as [|a l Hs IH Hall]; intros i j x y Hij Hi Hj.
  - destruct i; discriminate.
  - destruct j as [|j]; [lia|]. cbn in Hj.
    destruct i as [|i]; cbn in Hi.
    + injection Hi as <-. rewrite Forall_forall in Hall.
      apply Hall. eapply nth_error_In. eassumption.
    + apply (IH i j); (assumption || lia).
Qed.

(** What is known of the [k]-th outcome of a run. *)
Lemma run_outcomes_nth_error {C : Collaborators} data k o :
  nth_error (run_outcomes data) k = Some o ->
  exists fl,
    read_from_field fl
    /\ nth_error (local_headers (find_file_signatures data)) k
       = Some (outcome_offset o)
    /\ 0 <= outcome_offset o
    /\ outcome_span o
       = fst (payload_span data (outcome_offset o)
                (find_next_offset (local_headers (find_file_signatures data))
                   (outcome_offset o)) fl).
Proof.
  intros Hnth.
  destruct (outcomes_nth_error data _ _ 0%nat None k o I Hnth)
    as (fl & Hfl & Hoff & _ & Hspan).
  exists fl. repeat split; try assumption.
  apply (In_local_headers_nonneg data). eapply nth_error_In. eassumption.
Qed.

(** C10.  The spans of a run are those of [run_outcomes], whose slices
    are what [repair_zip] hands to the writer ([repair_zip_summary]).  In
    one run, take two entries whose spans were computed, the first at an
    earlier offset.  The span of the first stops at the next
    local header after it, that header is not after the second entry, and
    the span of the second starts beyond the second entry's own header.
    Hence no buffer index lies in both spans. *)
Theorem payload_spans_are_pairwise_disjoint
    {C : Collaborators} (data : bytes) (i j : nat) (oi oj : outcome)
    (a1 b1 a2 b2 : Z) :
  (i < j)%nat ->
  nth_error (run_outcomes data) i = Some oi ->
  nth_error (run_outcomes data) j = Some oj ->
  outcome_span oi = inr (a1, b1) ->
  outcome_span oj = inr (a2, b2) ->
  exists next_offset,
    find_next_offset (local_headers (find_file_signatures data))
      (outcome_offset oi) = Some next_offset
    /\ b1 = next_offset
    /\ next_offset <= outcome_offset oj
    /\ outcome_offset oj < a2
    /\ forall k, ~ (a1 <= k < b1 /\ a2 <= k < b2).
Proof.
  intros Hij Hi Hj Hspan_i Hspan_j.
  destruct (run_outcomes_nth_error data i oi Hi)
    as (fl_i & Hfl_i & Hoff_i & _ & Hsp_i).
  destruct (run_outcomes_nth_error data j oj Hj)
    as (fl_j & Hfl_j & Hoff_j & _ & Hsp_j).
  destruct (local_headers_spec data) as [Hsorted _].
  pose proof (StronglySorted_nth_error_lt _ Hsorted i j _ _ Hij Hoff_i Hoff_j)
    as Hlt.
  destruct (find_next_offset (local_headers (find_file_signatures data))
              (outcome_offset oi)) as [next|] eqn:Hnext.
  2:{ rewrite find_next_offset_none in Hnext.
      specialize (Hnext (outcome_offset oj)
                    (nth_error_In _ _ Hoff_j)). lia. }
  destruct (find_next_offset_some _ _ _ Hsorted Hnext) as (_ & _ & Hleast).
  specialize (Hleast (outcome_offset oj) (nth_error_In _ _ Hoff_j) Hlt).
  rewrite Hspan_i in Hsp_i. symmetry in Hsp_i.
  apply payload_span_bounds in Hsp_i as [_ Hb1]; [|assumption].
  rewrite Hspan_j in Hsp_j. symmetry in Hsp_j.
  apply payload_span_bounds in Hsp_j as [Ha2 _]; [|assumption].
  exists next. repeat split; try assumption; lia.
Qed.

Lemma payload_spans_are_pairwise_disjoint_witness :
  (0 < 1)%nat
  /\ exists oi oj a1 b1 a2 b2,
      nth_error (run_outcomes (C := recording) two_entry_buffer) 0 = Some oi
      /\ nth_error (run_outcomes (C := recording) two_entry_buffer) 1
         = Some oj
      /\ outcome_span oi = inr (a1, b1)
      /\ outcome_span oj = inr (a2, b2)
      /\ forall k, ~ (a1 <= k < b1 /\ a2 <= k < b2).
Proof.
  split; [lia|].
  eexists _, _, _, _, _, _.
  assert (H0 : nth_error (run_outcomes (C := recording) two_entry_buffer) 0
               = Some {| outcome_offset := 0;
                         outcome_name := text_of_string "ab";
                         outcome_span := inr (32, 35) |})
    by (vm_compute; reflexivity).
  assert (H1 : nth_error (run_outcomes (C := recording) two_entry_buffer) 1
               = Some {| outcome_offset := 35;
                         outcome_name := text_of_string "abcd.txt";
                         outcome_span := inr (67, 71) |})
    by (vm_compute; reflexivity).
  split; [exact H0|]. split; [exact H1|].
  split; [reflexivity|]. split; [reflexivity|].
  destruct (payload_spans_are_pairwise_disjoint (C := recording)
              two_entry_buffer 0 1 _ _ 32 35 67 71
              ltac:(lia) H0 H1 eq_refl eq_refl)
    as (next & _ & _ & _ & _ & Hdisjoint).
  exact Hdisjoint.
Defined.

(** A header cut by the end of the buffer: the read of the extra-field
    length raises [struct.error] in the computation of the span, and the
    entry is reported instead of written. *)
Lemma span_computation_raises_on_a_cut_header :
  local_headers (find_file_signatures cut_header_buffer) = [0]
  /\ fst (compute_file_data (C := recording) cut_header_buffer 0
            (find_next_offset [0] 0) (entered_frame recording 1))
     = inl StructError
  /\ repair_zip (C := recording) cut_header_buffer fresh_world
     = (inr true,
        {| output_file := Some (archive []);
           console := [FoundEntries 1; ErrorProcessing 0 StructError;
                       RepairCompleted] |}).
Proof. vm_compute. repeat split. Qed.

(** C5, amended.  Take the [k]-th local header of a run and the frame [s]
    in which the loop reaches it.  The computation of its payload, lines
    93-111, raises exactly when the buffer ends less than 30 bytes after
    the signature, and then it raises the [struct.error] of a length field
    that could not be read.  Otherwise it returns [data[start:stop]] for
    the span that these lines compute, and slicing never raises: [start]
    lies beyond the fixed part of the header, [stop] is the next local
    header when there is one and is not before [start] otherwise, the
    payload holds exactly the bytes at the indices [start <= i < stop]
    that exist, all bytes from [start] to the end of the buffer when
    [stop] is beyond it, and none when [stop <= start].  When a
    local-header signature stands right after the header bytes of the
    entry, at [offset + 30 + filename_length + extra_field_length], the
    payload is empty. *)
Theorem payload_is_clipped_unless_the_header_is_cut
    {C : Collaborators} (data : bytes) (z : ZipFile) (out : list message)
    (k : nat) (offset : Z) :
  nth_error (local_headers (find_file_signatures data)) k = Some offset ->
  let headers := local_headers (find_file_signatures data) in
  let entered := {| filename_length := None; new_zip := z; stdout := out |} in
  let s := snd (for_enumerate (loop_body data headers) 0 (firstn k headers)
                  entered) in
  let next_offset := find_next_offset headers offset in
  for_enumerate (loop_body data headers) 0 headers entered
  = bind (for_enumerate (loop_body data headers) 0 (firstn k headers))
      (fun _ => bind (loop_body data headers k offset)
                  (fun _ => for_enumerate (loop_body data headers) (S k)
                              (skipn (S k) headers))) entered
  /\ (fst (compute_file_data data offset next_offset s) = inl StructError
      <-> len data < offset + 30)
  /\ (forall e, fst (compute_file_data data offset next_offset s) = inl e ->
                e = StructError)
  /\ (offset + 30 <= len data ->
      exists start stop,
        fst (payload_span data offset next_offset (filename_length s))
        = inr (start, stop)
        /\ fst (compute_file_data data offset next_offset s)
           = inr (slice data start stop)
        /\ offset + 30 <= start
        /\ 0 <= stop
        /\ match next_offset with
           | Some next_header => stop = next_header
           | None => start <= stop
           end
        /\ (forall i : nat,
               nth_error (slice data start stop) i
               = if start + Z.of_nat i <? stop
                 then nth_error data (Z.to_nat start + i) else None)
        /\ (len data <= stop
            -> slice data start stop = skipn (Z.to_nat start) data)
        /\ (stop <= start -> slice data start stop = []))
  /\ (forall name_length extra_length,
         unpack_H (slice data (offset + 26) (offset + 28)) = inr name_length ->
         unpack_H (slice data (offset + 28) (offset + 30)) = inr extra_length ->
         occurs_at LOCAL_FILE_HEADER data
           (offset + 30 + name_length + extra_length) ->
         fst (compute_file_data data offset next_offset s) = inr []).
Proof.
  intros Hk headers entered s next_offset.
  destruct (local_headers_spec data) as [Hsorted Hmem].
  fold headers in Hsorted, Hmem, Hk.
  assert (Hoffset : 0 <= offset).
  { apply (In_local_headers_nonneg data). eapply nth_error_In. exact Hk. }
  assert (Hfl : read_from_field (filename_length s)).
  { subst s. apply for_enumerate_frame. exact I. }
  destruct (payload_span_total data offset next_offset (filename_length s)
              Hoffset) as [Hshort Hlong].
  split; [now apply for_enumerate_nth|].
  rewrite compute_file_data_summary. cbn [fst].
  split; [|split; [|split]].
  - destruct (Z.le_gt_cases (offset + 30) (len data)) as [Hle | Hgt].
    + destruct (Hlong Hle) as (start & stop & ->). cbn [slice_span].
      split; [discriminate | lia].
    + rewrite (Hshort Hgt). cbn [slice_span]. split; [lia | reflexivity].
  - intros e.
    destruct (Z.le_gt_cases (offset + 30) (len data)) as [Hle | Hgt].
    + destruct (Hlong Hle) as (start & stop & ->). discriminate.
    + rewrite (Hshort Hgt). cbn [slice_span]. now intros [= <-].
  - intros Hle. destruct (Hlong Hle) as (start & stop & Hspan).
    exists start, stop. rewrite Hspan. cbn [slice_span].
    destruct (payload_span_bounds data offset next_offset _ start stop
                Hfl Hspan) as [Hstart Hstop].
    assert (0 <= stop).
    { destruct next_offset as [next|] eqn:Hnext; [|lia].
      apply (find_next_offset_some _ _ _ Hsorted) in Hnext. lia. }
    repeat split; try assumption; try lia.
    + intros i. apply nth_error_slice; lia.
    + intros Hend. apply slice_to_end; lia.
    + intros Hinv. apply slice_inverted; lia.
  - intros fnl efl Hf He Hocc.
    pose proof (unpack_H_range _ _ Hf). pose proof (unpack_H_range _ _ He).
    apply Hmem in Hocc.
    destruct next_offset as [next|] eqn:Hnext.
    2:{ subst next_offset. rewrite find_next_offset_none in Hnext.
        specialize (Hnext _ Hocc). lia. }
    destruct (find_next_offset_some _ _ _ Hsorted Hnext)
      as (_ & Hgt & Hleast).
    specialize (Hleast _ Hocc ltac:(lia)).
    cbn [payload_span].
    rewrite (header_span_readable data _ _ _ _ _ Hf He).
    cbn [fst slice_span]. f_equal. apply slice_inverted. lia.
Qed.

Lemma payload_is_clipped_unless_the_header_is_cut_witness :
  nth_error (local_headers (find_file_signatures two_entry_buffer)) 1
  = Some 35
  /\ (fst (compute_file_data (C := recording) two_entry_buffer 35
             (find_next_offset
                (local_headers (find_file_signatures two_entry_buffer)) 35)
             (snd (for_enumerate
                     (loop_body two_entry_buffer
                        (local_headers
                           (find_file_signatures two_entry_buffer)))
                     0
                     (firstn 1
                        (local_headers
                           (find_file_signatures two_entry_buffer)))
                     {| filename_length := None; new_zip := archive [];
                        stdout := [] |})))
      = inl StructError
      <-> len two_entry_buffer < 35 + 30).
Proof.
  assert (Hk : nth_error
                 (local_headers (find_file_signatures two_entry_buffer)) 1
               = Some 35) by (vm_compute; reflexivity).
  split; [exact Hk|].
  exact (proj1 (proj2 (payload_is_clipped_unless_the_header_is_cut
                         (C := recording) two_entry_buffer (archive []) []
                         1 35 Hk))).
Defined.

(** Header [A], with an empty name, is directly followed by the signature
    of header [B]: the payload of [A] is empty.  (The payload of [B], the
    last entry, is cut with the [filename_length] that [A] left behind,
    0, and so is the name byte of [B] instead of [y].) *)
Example adjacent_headers_give_an_empty_payload :
  repair_zip (C := recording)
    (local_header [] 0 [] ++ local_header (ascii_bytes "b") 1 []
     ++ ascii_bytes "y") fresh_world
  = (inr true,
     {| output_file :=
          Some (archive [(recovered_name 0, []);
                         (text_of_string "b", ascii_bytes "b")]);
        console := [FoundEntries 2;
                    RecoveredFile (recovered_name 0);
                    RecoveredFile (text_of_string "b");
                    RepairCompleted] |}).
Proof. vm_compute. reflexivity. Qed.

(** ** The reference decoder *)

(** It maps no byte string but the empty one to the empty text, so with it
    a name is synthesized exactly when extraction fails or the header
    holds no filename bytes. *)
Lemma utf8_replace_nonempty (b : bytes) : b <> [] -> utf8_replace b <> [].
Proof.
  destruct b as [|b0 t1]; [congruence|]. intros _. cbn [utf8_replace].
  repeat match goal with
         | |- (if ?c then _ else _) <> [] => destruct c
         | |- match ?t with [] => _ | _ :: _ => _ end <> [] => destruct t
         | |- (let _ := _ in _) <> [] => cbv zeta
         end; discriminate.
Qed.

(** * Further properties *)

(** ** More on the signature scanner *)

Lemma self_avoiding_len sig : self_avoiding sig -> 4 <= len sig.
Proof.
  destruct sig as [|first others]; [contradiction|]. intros [_ Hlong].
  unfold len. simpl. lia.
Qed.

(** Offsets that are at least four apart and inside [lo, hi - 4] are at
    most [(hi - lo) / 4] many. *)
Lemma spaced_offsets_count (l : list Z) (hi : Z) :
  StronglySorted Z.lt l ->
  (forall o o', In o l -> In o' l -> o < o' -> o + 4 <= o') ->
  forall lo,
    (forall o, In o l -> lo <= o /\ o + 4 <= hi) -> lo <= hi ->
    4 * Z.of_nat (List.length l) <= hi - lo.
Proof.
  induction 1 as [|a l Hs IH Hall]; intros Hgap lo Hin Hle.
  - simpl. lia.
  - rewrite Forall_forall in Hall.
    destruct (Hin a (or_introl eq_refl)) as [Hlo Hhi].
    assert (Hrest : 4 * Z.of_nat (List.length l) <= hi - (a + 4)).
    { apply IH; [| |lia].
      - intros o o' Ho Ho'. apply Hgap; now right.
      - intros o Ho. split.
        + apply Hgap; [now left | now right | now apply Hall].
        + apply Hin. now right. }
    cbn [List.length]. lia.
Qed.

Lemma scan_loop_inside_and_apart data sig :
  self_avoiding sig ->
  (forall o, In o (scan_loop data sig [] 0) -> 0 <= o /\ o + 4 <= len data)
  /\ (forall o o', In o (scan_loop data sig [] 0) ->
                   In o' (scan_loop data sig [] 0) ->
                   o < o' -> o + 4 <= o')
  /\ 4 * Z.of_nat (List.length (scan_loop data sig [] 0)) <= len data.
Proof.
  intros Hsig. destruct (scan_loop_from_start data sig Hsig) as [Hsorted Hmem].
  pose proof (self_avoiding_len sig Hsig) as Hlen.
  pose proof (self_avoiding_nonempty sig Hsig) as Hne.
  assert (Hinside : forall o, In o (scan_loop data sig [] 0) ->
                              0 <= o /\ o + 4 <= len data).
  { intros o Ho. apply Hmem in Ho.
    pose proof (occurs_at_inside sig data o Hne Ho). destruct Ho. lia. }
  assert (Hapart : forall o o', In o (scan_loop data sig [] 0) ->
                                In o' (scan_loop data sig [] 0) ->
                                o < o' -> o + 4 <= o').
  { intros o o' Ho Ho' Hlt. apply Hmem in Ho. apply Hmem in Ho'.
    destruct (Z.le_gt_cases (o + 4) o'); [assumption|].
    exfalso. apply (no_overlap sig data o o' Hsig Ho Ho'). lia. }
  repeat split; try (now apply Hinside); try assumption.
  pose proof (len_nonneg data).
  pose proof (spaced_offsets_count _ (len data) Hsorted Hapart 0 Hinside).
  lia.
Qed.

Lemma end_of_central_dir_inside data o :
  end_of_central_dir (find_file_signatures data) = Some o ->
  0 <= o /\ o + 4 <= len data.
Proof.
  intros Ho. pose proof (end_of_central_dir_spec data) as Hspec.
  rewrite Ho in Hspec. destruct Hspec as [Hocc _].
  assert (Hne : END_OF_CENTRAL_DIR <> []) by discriminate.
  pose proof (occurs_at_inside _ data o Hne Hocc) as Hin.
  destruct Hocc as [Hnonneg _]. unfold len in Hin at 1. simpl in Hin. lia.
Qed.

(** X1.  Every offset that the scanner reports lies inside the buffer with
    its four signature bytes, two offsets of the same kind are at least
    four apart, and so each list holds at most [len data / 4] offsets. *)
Theorem signature_offsets_are_inside_and_apart (data : bytes) :
  ((forall o, In o (local_headers (find_file_signatures data)) ->
              0 <= o /\ o + 4 <= len data)
   /\ (forall o o', In o (local_headers (find_file_signatures data)) ->
                    In o' (local_headers (find_file_signatures data)) ->
                    o < o' -> o + 4 <= o')
   /\ 4 * Z.of_nat (List.length (local_headers (find_file_signatures data)))
      <= len data)
  /\ ((forall o, In o (central_dir_headers (find_file_signatures data)) ->
                 0 <= o /\ o + 4 <= len data)
      /\ (forall o o',
             In o (central_dir_headers (find_file_signatures data)) ->
             In o' (central_dir_headers (find_file_signatures data)) ->
             o < o' -> o + 4 <= o')
      /\ 4 * Z.of_nat
               (List.length (central_dir_headers (find_file_signatures data)))
         <= len data)
  /\ (forall o, end_of_central_dir (find_file_signatures data) = Some o ->
                0 <= o /\ o + 4 <= len data).
Proof.
  split; [|split].
  - apply scan_loop_inside_and_apart, self_avoiding_LOCAL_FILE_HEADER.
  - apply scan_loop_inside_and_apart, self_avoiding_CENTRAL_DIR_HEADER.
  - apply end_of_central_dir_inside.
Qed.

(** X2.  The three kinds of signature exclude each other: no offset is
    reported as a local header and as a central-directory header, and the
    end-of-central-directory offset is in neither list. *)
Theorem signature_kinds_are_exclusive (data : bytes) (o : Z) :
  ~ (In o (local_headers (find_file_signatures data))
     /\ In o (central_dir_headers (find_file_signatures data)))
  /\ (end_of_central_dir (find_file_signatures data) = Some o ->
      ~ In o (local_headers (find_file_signatures data))
      /\ ~ In o (central_dir_headers (find_file_signatures data))).
Proof.
  destruct (local_headers_spec data) as [_ Hl].
  destruct (central_dir_headers_spec data) as [_ Hc].
  split.
  - intros [Hol Hoc]. apply Hl in Hol as [_ Hol]. apply Hc in Hoc as [_ Hoc].
    unfold len in *. simpl in *. rewrite Hol in Hoc. discriminate.
  - intros He. pose proof (end_of_central_dir_spec data) as Hspec.
    rewrite He in Hspec. destruct Hspec as [[_ Hoe] _].
    split; intros Hin.
    + apply Hl in Hin as [_ Hin]. unfold len in *. simpl in *.
      rewrite Hoe in Hin. discriminate.
    + apply Hc in Hin as [_ Hin]. unfold len in *. simpl in *.
      rewrite Hoe in Hin. discriminate.
Qed.

(** X3.  A buffer of fewer than four bytes, the empty buffer included,
    holds no signature of any kind, and the repair pass fails on it
    without touching the output path. *)
Theorem short_buffer_has_no_signature
    {C : Collaborators} (data : bytes) (w : world) :
  len data < 4 ->
  find_file_signatures data
  = {| local_headers := []; central_dir_headers := [];
       end_of_central_dir := None |}
  /\ repair_zip data w
     = (inr false,
        {| output_file := output_file w;
           console := console w ++ [NoHeadersFound] |}).
Proof.
  intros Hshort.
  destruct (scan_loop_inside_and_apart data LOCAL_FILE_HEADER
              self_avoiding_LOCAL_FILE_HEADER) as (_ & _ & Hl).
  destruct (scan_loop_inside_and_apart data CENTRAL_DIR_HEADER
              self_avoiding_CENTRAL_DIR_HEADER) as (_ & _ & Hc).
  pose proof (end_of_central_dir_inside data) as He.
  change (scan_loop data LOCAL_FILE_HEADER [] 0)
    with (local_headers (find_file_signatures data)) in Hl.
  change (scan_loop data CENTRAL_DIR_HEADER [] 0)
    with (central_dir_headers (find_file_signatures data)) in Hc.
  assert (Hlh : local_headers (find_file_signatures data) = []).
  { destruct (local_headers (find_file_signatures data)); [reflexivity|].
    cbn [List.length] in Hl. lia. }
  assert (Hch : central_dir_headers (find_file_signatures data) = []).
  { destruct (central_dir_headers (find_file_signatures data));
      [reflexivity|].
    cbn [List.length] in Hc. lia. }
  assert (Hec : end_of_central_dir (find_file_signatures data) = None).
  { destruct (end_of_central_dir (find_file_signatures data)) as [o|];
      [|reflexivity].
    specialize (He o eq_refl). pose proof (len_nonneg data). lia. }
  split.
  - destruct (find_file_signatures data) as [lh ch ec]. cbn in *.
    now subst.
  - rewrite repair_zip_summary, Hlh. reflexivity.
Qed.

Lemma short_buffer_has_no_signature_witness :
  len [x50; x4b; x03] < 4
  /\ find_file_signatures [x50; x4b; x03]
     = {| local_headers := []; central_dir_headers := [];
          end_of_central_dir := None |}.
Proof.
  split; [vm_compute; reflexivity|].
  apply (short_buffer_has_no_signature (C := recording)
           [x50; x4b; x03] fresh_world).
  vm_compute. reflexivity.
Defined.

(** ** Signatures of a buffer made of two parts *)

Lemma starts_with_app sub x y :
  starts_with sub x = true -> starts_with sub (x ++ y) = true.
Proof.
  revert x. induction sub as [|s sub IH]; intros [|d x]; simpl;
    try reflexivity; try discriminate.
  rewrite !andb_true_iff. intros [Hb Hrest]. split; [assumption|].
  now apply IH.
Qed.

Lemma starts_with_app_inv sub x y :
  (List.length sub <= List.length x)%nat ->
  starts_with sub (x ++ y) = starts_with sub x.
Proof.
  revert x. induction sub as [|s sub IH]; intros [|d x] Hlen; simpl in *;
    try reflexivity; try lia.
  rewrite IH by lia. reflexivity.
Qed.

Lemma occurs_at_app_l sub a b o :
  occurs_at sub a o -> occurs_at sub (a ++ b) o.
Proof.
  rewrite !occurs_at_starts_with. intros [Ho H]. split; [assumption|].
  rewrite skipn_app. now apply starts_with_app.
Qed.

Lemma occurs_at_app_r sub a b o :
  occurs_at sub b o -> occurs_at sub (a ++ b) (len a + o).
Proof.
  rewrite !occurs_at_starts_with. intros [Ho H].
  pose proof (len_nonneg a). split; [lia|].
  rewrite skipn_app, skipn_all2 by (unfold len; lia). cbn [app].
  now replace (Z.to_nat (len a + o) - List.length a)%nat
    with (Z.to_nat o) by (unfold len; lia).
Qed.

Lemma occurs_at_app_inv sub a b o :
  occurs_at sub (a ++ b) o ->
  (o + len sub <= len a /\ occurs_at sub a o)
  \/ (len a <= o /\ occurs_at sub b (o - len a))
  \/ (len a - len sub < o < len a).
Proof.
  rewrite !occurs_at_starts_with. intros [Ho H].
  destruct (Z.le_gt_cases (o + len sub) (len a)) as [Hleft | Hnot].
  - left. split; [assumption|]. split; [assumption|].
    rewrite skipn_app in H. rewrite starts_with_app_inv in H; [assumption|].
    rewrite length_skipn. unfold len in *. lia.
  - destruct (Z.le_gt_cases (len a) o) as [Hright | Hmid].
    + right. left. split; [assumption|]. split; [lia|].
      rewrite skipn_app, skipn_all2 in H by (unfold len in *; lia).
      cbn [app] in H.
      now replace (Z.to_nat (o - len a))
        with (Z.to_nat o - List.length a)%nat by (unfold len; lia).
    + right. right. lia.
Qed.

(** X4.  Bytes appended to a buffer remove none of its local headers, and
    the local headers of the appended part are found shifted by the length
    of the first part.  Conversely a local header of the whole starts in
    the first part, or is one of the second part, or straddles the joint
    in its last three bytes. *)
Theorem local_headers_of_a_concatenation (a b : bytes) (o : Z) :
  (In o (local_headers (find_file_signatures a))
   -> In o (local_headers (find_file_signatures (a ++ b))))
  /\ (In o (local_headers (find_file_signatures b))
      -> In (len a + o) (local_headers (find_file_signatures (a ++ b))))
  /\ (In o (local_headers (find_file_signatures (a ++ b)))
      -> In o (local_headers (find_file_signatures a))
         \/ (len a <= o
             /\ In (o - len a) (local_headers (find_file_signatures b)))
         \/ (len a - 4 < o < len a)).
Proof.
  pose proof (proj2 (local_headers_spec a)) as Ha.
  pose proof (proj2 (local_headers_spec b)) as Hb.
  pose proof (proj2 (local_headers_spec (a ++ b))) as Hab.
  split; [|split].
  - intros Hin. apply Hab, occurs_at_app_l, Ha, Hin.
  - intros Hin. apply Hab, occurs_at_app_r, Hb, Hin.
  - intros Hin. apply Hab, occurs_at_app_inv in Hin.
    destruct Hin as [[_ Hin] | [[Hle Hin] | Hmid]].
    + left. now apply Ha.
    + right. left. split; [assumption | now apply Hb].
    + right. right. exact Hmid.
Qed.

(** ** Well-formed local headers *)

Lemma byte_val_byte_of_Z z : byte_val (byte_of_Z z) = z mod 256.
Proof.
  unfold byte_val, byte_of_Z.
  pose proof (Z.mod_pos_bound z 256 ltac:(lia)) as Hm.
  destruct (Byte.of_N (Z.to_N (z mod 256))) as [b|] eqn:E.
  - apply Byte.to_of_N in E. rewrite E. lia.
  - apply Byte.of_N_None_iff in E. lia.
Qed.

Lemma unpack_H_le16 z : 0 <= z < 65536 -> unpack_H (le16 z) = inr z.
Proof.
  intros Hz. unfold unpack_H, le16. rewrite !byte_val_byte_of_Z.
  assert (0 <= z / 256 < 256)
    by (split; [apply Z.div_pos | apply Z.div_lt_upper_bound]; lia).
  f_equal. rewrite (Z.mod_small (z / 256)) by assumption.
  pose proof (Z.div_mod z 256 ltac:(lia)). lia.
Qed.

Lemma unpack_I_le32 z : 0 <= z < 4294967296 -> unpack_I (le32 z) = inr z.
Proof.
  intros Hz. unfold unpack_I, le32, le16. cbn [app].
  rewrite !byte_val_byte_of_Z. f_equal.
  assert (0 <= z / 65536 < 65536)
    by (split; [apply Z.div_pos | apply Z.div_lt_upper_bound]; lia).
  assert (0 <= z / 65536 / 256 < 256)
    by (split; [apply Z.div_pos | apply Z.div_lt_upper_bound]; lia).
  rewrite (Z.mod_small (z / 65536 / 256)) by assumption.
  pose proof (Z.div_mod z 65536 ltac:(lia)).
  pose proof (Z.div_mod (z / 65536) 256 ltac:(lia)).
  pose proof (Z.div_mod z 256 ltac:(lia)).
  pose proof (Z.div_mod (z / 256) 256 ltac:(lia)).
  assert (z / 256 / 256 = z / 65536)
    by (rewrite Z.div_div by lia; reflexivity).
  lia.
Qed.

(** The slice that covers exactly the middle one of three parts. *)
Lemma slice_middle (data x y z : bytes) a b :
  data = x ++ y ++ z -> a = len x -> b = len x + len y ->
  slice data a b = y.
Proof.
  intros -> -> ->. pose proof (len_nonneg x). pose proof (len_nonneg y).
  rewrite slice_firstn_skipn by lia. unfold len. rewrite !Nat2Z.id.
  rewrite skipn_app, skipn_all, Nat.sub_diag. cbn [app skipn].
  rewrite firstn_app, firstn_all, Nat.sub_diag. cbn [firstn].
  apply app_nil_r.
Qed.

Lemma len_local_header name cs extra :
  len (local_header name cs extra) = 30 + len name + len extra.
Proof.
  unfold local_header, len, le32, le16. rewrite !length_app.
  cbn [List.length LOCAL_FILE_HEADER]. lia.
Qed.

(** The fields of a header laid out by [local_header], wherever it stands
    in the buffer. *)
Lemma fields_of_a_local_header pre name cs extra rest :
  let data := pre ++ local_header name cs extra ++ rest in
  slice data (len pre + 18) (len pre + 22) = le32 cs
  /\ slice data (len pre + 26) (len pre + 28) = le16 (len name)
  /\ slice data (len pre + 28) (len pre + 30) = le16 (len extra)
  /\ slice data (len pre + 30) (len pre + 30 + len name) = name
  /\ forall payload post,
      rest = payload ++ post ->
      slice data (len pre + 30 + len name + len extra)
        (len pre + 30 + len name + len extra + len payload) = payload.
Proof.
  cbv zeta. unfold local_header.
  set (v := le16 20). set (f := le16 0). set (crc := le32 0).
  set (sz := le32 cs). set (nl := le16 (len name)).
  set (el := le16 (len extra)).
  assert (Hv : len v = 2) by reflexivity.
  assert (Hf : len f = 2) by reflexivity.
  assert (Hcrc : len crc = 4) by reflexivity.
  assert (Hsz : len sz = 4) by reflexivity.
  assert (Hnl : len nl = 2) by reflexivity.
  assert (Hel : len el = 2) by reflexivity.
  assert (Hsig : len LOCAL_FILE_HEADER = 4) by reflexivity.
  assert (Happ : forall a b : bytes, len (a ++ b) = len a + len b).
  { intros a b. unfold len. rewrite length_app. lia. }
  repeat split.
  - apply (slice_middle _
             (pre ++ LOCAL_FILE_HEADER ++ v ++ f ++ f ++ f ++ f ++ crc)
             sz (sz ++ nl ++ el ++ name ++ extra ++ rest)).
    + now rewrite <- !app_assoc.
    + rewrite !Happ. lia.
    + rewrite !Happ. lia.
  - apply (slice_middle _
             (pre ++ LOCAL_FILE_HEADER ++ v ++ f ++ f ++ f ++ f ++ crc
              ++ sz ++ sz)
             nl (el ++ name ++ extra ++ rest)).
    + now rewrite <- !app_assoc.
    + rewrite !Happ. lia.
    + rewrite !Happ. lia.
  - apply (slice_middle _
             (pre ++ LOCAL_FILE_HEADER ++ v ++ f ++ f ++ f ++ f ++ crc
              ++ sz ++ sz ++ nl)
             el (name ++ extra ++ rest)).
    + now rewrite <- !app_assoc.
    + rewrite !Happ. lia.
    + rewrite !Happ. lia.
  - apply (slice_middle _
             (pre ++ LOCAL_FILE_HEADER ++ v ++ f ++ f ++ f ++ f ++ crc
              ++ sz ++ sz ++ nl ++ el)
             name (extra ++ rest)).
    + now rewrite <- !app_assoc.
    + rewrite !Happ. lia.
    + rewrite !Happ. lia.
  - intros payload post ->.
    apply (slice_middle _
             (pre ++ LOCAL_FILE_HEADER ++ v ++ f ++ f ++ f ++ f ++ crc
              ++ sz ++ sz ++ nl ++ el ++ name ++ extra)
             payload post).
    + now rewrite <- !app_assoc.
    + rewrite !Happ. lia.
    + rewrite !Happ. lia.
Qed.

(** X5.  Round trip of the file name: from a header laid out as the ZIP
    format prescribes, that stands anywhere in the buffer and carries a
    name of fewer than 65536 bytes, filename extraction returns the decoded
    name, whatever the other fields, the extra field and the bytes around
    the header are. *)
Theorem extraction_returns_the_name_of_a_local_header
    {C : Collaborators} (pre name extra rest : bytes) (compressed_size : Z) :
  len name < 65536 ->
  extract_filename_from_header
    (pre ++ local_header name compressed_size extra ++ rest) (len pre)
  = Some (decode_utf8_replace name).
Proof.
  intros Hname. pose proof (len_nonneg name).
  destruct (fields_of_a_local_header pre name compressed_size extra rest)
    as (_ & Hnl & _ & Hn & _).
  unfold extract_filename_from_header.
  rewrite Hnl, unpack_H_le16 by lia. now rewrite Hn.
Qed.

Lemma extraction_returns_the_name_of_a_local_header_witness :
  len (ascii_bytes "a.txt") < 65536
  /\ extract_filename_from_header (C := recording)
       (ascii_bytes "junk" ++ local_header (ascii_bytes "a.txt") 5 []
        ++ ascii_bytes "hello") (len (ascii_bytes "junk"))
     = Some (text_of_string "a.txt").
Proof.
  split; [vm_compute; reflexivity|].
  apply (extraction_returns_the_name_of_a_local_header (C := recording)
           (ascii_bytes "junk") (ascii_bytes "a.txt") []
           (ascii_bytes "hello") 5).
  vm_compute. reflexivity.
Defined.

(** X6.  Take an entry that is laid out as header, name, extra field and
    payload, and behind whose payload the next local header follows
    directly.  Its iteration of the loop calls the writer once, with the
    decoded name, or the synthesized one when the decoded name is empty,
    and with the payload byte for byte.  It prints the recovery line when
    the writer returns, and the error line with the writer's exception
    when the writer raises; and it leaves the entry's own filename length
    behind.  The declared compressed size and the state left by the
    earlier entries have no influence. *)
Theorem entry_before_a_header_is_handed_to_the_writer
    {C : Collaborators} (pre name extra payload post : bytes)
    (compressed_size : Z) (i : nat) (s : frame) :
  len name < 65536 ->
  len extra < 65536 ->
  find_next_offset
    (local_headers
       (find_file_signatures
          (pre ++ local_header name compressed_size extra
           ++ payload ++ post)))
    (len pre)
  = Some (len pre + 30 + len name + len extra + len payload) ->
  let data :=
    pre ++ local_header name compressed_size extra ++ payload ++ post in
  let filename :=
    match decode_utf8_replace name with
    | [] => recovered_name i
    | decoded => decoded
    end in
  loop_body data (local_headers (find_file_signatures data)) i (len pre) s
  = (inr tt,
     {| filename_length := Some (len name);
        new_zip := snd (writestr filename payload (new_zip s));
        stdout :=
          stdout s
          ++ [match fst (writestr filename payload (new_zip s)) with
              | None => RecoveredFile filename
              | Some e => ErrorProcessing (len pre) e
              end] |}).
Proof.
  intros Hname Hextra Hnext data filename.
  pose proof (len_nonneg name). pose proof (len_nonneg extra).
  destruct (fields_of_a_local_header pre name compressed_size extra
              (payload ++ post)) as (_ & Hnl & Hel & Hn & Hpayload).
  specialize (Hpayload payload post eq_refl).
  fold data in Hnl, Hel, Hn, Hpayload, Hnext.
  assert (Hextract : extract_filename_from_header data (len pre)
                     = Some (decode_utf8_replace name)).
  { unfold extract_filename_from_header.
    rewrite Hnl, unpack_H_le16 by lia. now rewrite Hn. }
  assert (Hfilename :
            resolve_filename (extract_filename_from_header data (len pre)) i
            = filename).
  { rewrite Hextract. subst filename. cbn [resolve_filename].
    now destruct (decode_utf8_replace name). }
  unfold loop_body, try_except, process_entry.
  rewrite Hnext, Hfilename.
  unfold bind at 1. rewrite compute_file_data_summary.
  cbn [payload_span].
  rewrite (header_span_readable _ (len pre) _ _ (len name) (len extra));
    [| rewrite Hnl; apply unpack_H_le16; lia
     | rewrite Hel; apply unpack_H_le16; lia].
  cbn [fst snd slice_span]. rewrite Hpayload.
  unfold bind, new_zip_writestr, print, set_filename_length.
  cbn [new_zip stdout filename_length].
  destruct (writestr filename payload (new_zip s)) as [[e|] z'];
    reflexivity.
Qed.

Lemma entry_before_a_header_is_handed_to_the_writer_witness :
  len (ascii_bytes "ab") < 65536
  /\ len ([] : bytes) < 65536
  /\ find_next_offset
       (local_headers
          (find_file_signatures
             ([] ++ local_header (ascii_bytes "ab") 3 []
              ++ ascii_bytes "xyz"
              ++ local_header (ascii_bytes "abcd.txt") 4 []
              ++ ascii_bytes "wxyz" ++ ascii_bytes "tail")))
       (len [])
     = Some (len [] + 30 + len (ascii_bytes "ab") + len []
             + len (ascii_bytes "xyz"))
  /\ loop_body (C := recording)
       ([] ++ local_header (ascii_bytes "ab") 3 []
        ++ ascii_bytes "xyz"
        ++ local_header (ascii_bytes "abcd.txt") 4 []
        ++ ascii_bytes "wxyz" ++ ascii_bytes "tail")
       (local_headers
          (find_file_signatures
             ([] ++ local_header (ascii_bytes "ab") 3 []
              ++ ascii_bytes "xyz"
              ++ local_header (ascii_bytes "abcd.txt") 4 []
              ++ ascii_bytes "wxyz" ++ ascii_bytes "tail")))
       0 (len []) (entered_frame recording 2)
     = (inr tt,
        {| filename_length := Some 2;
           new_zip := archive [(text_of_string "ab", ascii_bytes "xyz")];
           stdout := [FoundEntries 2; RecoveredFile (text_of_string "ab")] |}).
Proof.
  assert (H1 : len (ascii_bytes "ab") < 65536) by (vm_compute; reflexivity).
  assert (H2 : len ([] : bytes) < 65536) by (vm_compute; reflexivity).
  assert (H3 : find_next_offset
       (local_headers
          (find_file_signatures
             ([] ++ local_header (ascii_bytes "ab") 3 []
              ++ ascii_bytes "xyz"
              ++ local_header (ascii_bytes "abcd.txt") 4 []
              ++ ascii_bytes "wxyz" ++ ascii_bytes "tail")))
       (len [])
     = Some (len [] + 30 + len (ascii_bytes "ab") + len []
             + len (ascii_bytes "xyz")))
    by (vm_compute; reflexivity).
  split; [exact H1|]. split; [exact H2|]. split; [exact H3|].
  rewrite (entry_before_a_header_is_handed_to_the_writer (C := recording)
             [] (ascii_bytes "ab") [] (ascii_bytes "xyz")
             (local_header (ascii_bytes "abcd.txt") 4 []
              ++ ascii_bytes "wxyz" ++ ascii_bytes "tail")
             3 0 (entered_frame recording 2) H1 H2 H3).
  vm_compute. reflexivity.
Defined.

(** The same entry with a writer that has no room: the iteration reports
    the writer's exception and writes nothing. *)
Example entry_refused_by_the_writer :
  loop_body (C := bounded 0) two_entry_buffer
    (local_headers (find_file_signatures two_entry_buffer)) 0 0
    (entered_frame (bounded 0) 2)
  = (inr tt,
     {| filename_length := Some 2;
        new_zip := ZipFile_w (Collaborators := bounded 0);
        stdout := [FoundEntries 2; ErrorProcessing 0 WriteError] |}).
Proof. vm_compute. reflexivity. Qed.

(** ** Which entries are lost *)

(** X7.  In a run, the computation of an entry's payload fails exactly
    when the buffer ends less than 30 bytes after the entry's signature,
    and what is then reported is the [struct.error]: the
    [UnboundLocalError] of the declared-size branch never reaches the
    console. *)
Theorem entry_fails_exactly_when_its_header_is_cut
    {C : Collaborators} (data : bytes) (o : outcome) :
  In o (run_outcomes data) ->
  (outcome_span o = inl StructError <-> len data < outcome_offset o + 30)
  /\ (forall e, outcome_span o = inl e -> e = StructError).
Proof.
  intros Hin. apply In_nth_error in Hin as [k Hk].
  destruct (run_outcomes_nth_error data k o Hk)
    as (fl & _ & _ & Hnonneg & Hspan).
  destruct (payload_span_total data (outcome_offset o)
              (find_next_offset (local_headers (find_file_signatures data))
                 (outcome_offset o)) fl Hnonneg) as [Hshort Hlong].
  rewrite <- Hspan in Hshort, Hlong.
  destruct (Z.le_gt_cases (outcome_offset o + 30) (len data)) as [Hle | Hgt].
  - destruct (Hlong Hle) as (start & stop & Hsp). rewrite Hsp.
    split; [split; [discriminate | lia] | discriminate].
  - rewrite (Hshort Hgt).
    split; [split; [lia | reflexivity] | now intros e [= <-]].
Qed.

Lemma entry_fails_exactly_when_its_header_is_cut_witness :
  In {| outcome_offset := 4;
        outcome_name := recovered_name 1;
        outcome_span := inl StructError |}
     (run_outcomes (C := recording)
        (LOCAL_FILE_HEADER ++ LOCAL_FILE_HEADER))
  /\ len (LOCAL_FILE_HEADER ++ LOCAL_FILE_HEADER) < 4 + 30.
Proof.
  assert (H : In {| outcome_offset := 4;
                    outcome_name := recovered_name 1;
                    outcome_span := inl StructError |}
                 (run_outcomes (C := recording)
                    (LOCAL_FILE_HEADER ++ LOCAL_FILE_HEADER)))
    by (vm_compute; auto).
  split; [exact H|].
  apply (proj1 (entry_fails_exactly_when_its_header_is_cut
                  (C := recording) _ _ H)).
  reflexivity.
Defined.

Lemma length_filter_split {A} (f : A -> bool) (l : list A) :
  (List.length (filter f l)
   + List.length (filter (fun x => negb (f x)) l))%nat
  = List.length l.
Proof.
  induction l as [|a l IH]; [reflexivity|].
  cbn [filter]. destruct (f a); cbn [negb List.length]; lia.
Qed.

Lemma StronglySorted_filter {A} (R : A -> A -> Prop) (f : A -> bool) l :
  StronglySorted R l -> StronglySorted R (filter f l).
Proof.
  induction 1 as [|a l Hs IH Hall]; cbn [filter]; [constructor|].
  destruct (f a); [|assumption].
  constructor; [assumption|].
  rewrite Forall_forall in *. intros x Hx. apply filter_In in Hx.
  now apply Hall.
Qed.

(** The pairs of a list of outcomes: one for each header that has 30
    bytes behind it. *)
Lemma outcomes_pairs_count {C : Collaborators} data headers l :
  (forall o, In o l -> 0 <= o) ->
  forall i fl,
    List.length
      (flat_map (fun o => match outcome_span o with
                          | inr (start, stop) =>
                              [(outcome_name o, slice data start stop)]
                          | inl _ => []
                          end)
                (outcomes data headers i l fl))
    = List.length (filter (fun offset => offset + 30 <=? len data) l).
Proof.
  induction l as [|offset rest IH]; intros Hnonneg i fl; [reflexivity|].
  cbn [outcomes filter].
  destruct (payload_span_total data offset
              (find_next_offset headers offset) fl
              (Hnonneg offset (or_introl eq_refl))) as [Hshort Hlong].
  destruct (payload_span _ _ _ _) as [sp fl'].
  cbn [flat_map outcome_span outcome_name fst] in *.
  rewrite length_app, IH by (intros o Ho; apply Hnonneg; now right).
  destruct (Z.leb_spec (offset + 30) (len data)) as [Hle | Hgt].
  - destruct (Hlong Hle) as (start & stop & ->). reflexivity.
  - rewrite (Hshort Hgt). reflexivity.
Qed.

(** X8.  An entry's pair is computed for exactly the local headers that
    have at least 30 bytes of buffer from their signature on.  The others
    all lie in the last 29 bytes of the buffer and are at most seven. *)
Theorem at_most_seven_headers_yield_no_pair
    {C : Collaborators} (data : bytes) :
  List.length (recovered_pairs data)
  = List.length
      (filter (fun offset => offset + 30 <=? len data)
              (local_headers (find_file_signatures data)))
  /\ (forall offset,
         In offset (local_headers (find_file_signatures data)) ->
         (offset + 30 <=? len data) = false ->
         len data - 30 < offset <= len data - 4)
  /\ (List.length (local_headers (find_file_signatures data))
      <= List.length (recovered_pairs data) + 7)%nat.
Proof.
  destruct (local_headers_spec data) as [Hsorted _].
  destruct (scan_loop_inside_and_apart data LOCAL_FILE_HEADER
              self_avoiding_LOCAL_FILE_HEADER) as (Hinside & Hapart & _).
  change (scan_loop data LOCAL_FILE_HEADER [] 0)
    with (local_headers (find_file_signatures data)) in Hinside, Hapart.
  assert (Hcount : List.length (recovered_pairs data)
                   = List.length
                       (filter (fun offset => offset + 30 <=? len data)
                               (local_headers (find_file_signatures data)))).
  { unfold recovered_pairs, run_outcomes. apply outcomes_pairs_count.
    intros o Ho. now apply Hinside. }
  assert (Hlate : forall offset,
             In offset (local_headers (find_file_signatures data)) ->
             (offset + 30 <=? len data) = false ->
             len data - 30 < offset <= len data - 4).
  { intros offset Hin Hcut. apply Hinside in Hin.
    destruct (Z.leb_spec (offset + 30) (len data)); [discriminate | lia]. }
  split; [exact Hcount|]. split; [exact Hlate|].
  rewrite Hcount.
  rewrite <- (length_filter_split (fun offset => offset + 30 <=? len data)
                (local_headers (find_file_signatures data))).
  apply Nat.add_le_mono_l.
  pose proof (spaced_offsets_count
                (filter (fun x => negb (x + 30 <=? len data))
                        (local_headers (find_file_signatures data)))
                (len data)
                (StronglySorted_filter _ _ _ Hsorted)) as Hspaced.
  assert (4 * Z.of_nat
                (List.length
                   (filter (fun x => negb (x + 30 <=? len data))
                           (local_headers (find_file_signatures data))))
          <= len data - (len data - 29)); [|lia].
  apply Hspaced.
  - intros o o' Ho Ho'. apply filter_In in Ho as [Ho _].
    apply filter_In in Ho' as [Ho' _]. now apply Hapart.
  - intros o Ho. apply filter_In in Ho as [Ho Hcut].
    apply negb_true_iff in Hcut. specialize (Hlate o Ho Hcut). lia.
  - lia.
Qed.

(** A buffer that ends in seven signatures: none of them yields a pair. *)
Example seven_lost_entries :
  List.length
    (local_headers
       (find_file_signatures
          (LOCAL_FILE_HEADER ++ LOCAL_FILE_HEADER ++ LOCAL_FILE_HEADER
           ++ LOCAL_FILE_HEADER ++ LOCAL_FILE_HEADER ++ LOCAL_FILE_HEADER
           ++ LOCAL_FILE_HEADER))) = 7%nat
  /\ recovered_pairs (C := recording)
       (LOCAL_FILE_HEADER ++ LOCAL_FILE_HEADER ++ LOCAL_FILE_HEADER
        ++ LOCAL_FILE_HEADER ++ LOCAL_FILE_HEADER ++ LOCAL_FILE_HEADER
        ++ LOCAL_FILE_HEADER) = [].
Proof. split; vm_compute; reflexivity. Qed.

(** ** The size of what is recovered *)

Lemma find_next_offset_in_sorted pre o rest :
  StronglySorted Z.lt (pre ++ o :: rest) ->
  find_next_offset (pre ++ o :: rest) o = hd_error rest.
Proof.
  unfold find_next_offset. induction pre as [|p pre IH]; cbn [app find].
  - intros Hs. rewrite Z.ltb_irrefl. destruct rest as [|o' rest'];
      [reflexivity|].
    apply StronglySorted_inv in Hs as [_ Hall].
    rewrite Forall_forall in Hall. specialize (Hall o' (or_introl eq_refl)).
    cbn [find hd_error]. destruct (Z.ltb_spec o o'); [reflexivity | lia].
  - intros Hs. apply StronglySorted_inv in Hs as [Hs Hall].
    rewrite Forall_forall in Hall.
    assert (p < o) by (apply Hall, in_or_app; right; now left).
    destruct (Z.ltb_spec o p); [lia | now apply IH].
Qed.

Lemma StronglySorted_adjacent (pre : list Z) o o' rest :
  StronglySorted Z.lt (pre ++ o :: o' :: rest) -> o < o'.
Proof.
  induction pre as [|p pre IH]; cbn [app]; intros Hs;
    apply StronglySorted_inv in Hs as [Hs Hall].
  - rewrite Forall_forall in Hall. apply Hall. now left.
  - now apply IH.
Qed.

Lemma list_sum_cons (n : nat) (l : list nat) :
  list_sum (n :: l) = (n + list_sum l)%nat.
Proof. reflexivity. Qed.

Lemma pairs_size {C : Collaborators} data (plan : list outcome) :
  list_sum
    (map (fun pair => List.length (snd pair))
         (flat_map (fun o => match outcome_span o with
                             | inr (start, stop) =>
                                 [(outcome_name o, slice data start stop)]
                             | inl _ => []
                             end) plan))
  = list_sum (map (payload_size data) plan).
Proof.
  induction plan as [|o plan IH]; [reflexivity|].
  change (o :: plan) with ([o] ++ plan).
  rewrite flat_map_app, !map_app, !list_sum_app.
  apply f_equal2; [|exact IH].
  unfold payload_size. cbn [flat_map map].
  destruct (outcome_span o) as [e | [start stop]]; cbn; lia.
Qed.

(** The payloads of the entries from some header on fit between that
    header and the end of the buffer. *)
Lemma outcomes_size {C : Collaborators} data headers :
  StronglySorted Z.lt headers ->
  (forall o, In o headers -> 0 <= o /\ o + 4 <= len data) ->
  forall l pre i fl,
    headers = pre ++ l -> read_from_field fl ->
    Z.of_nat (list_sum (map (payload_size data)
                          (outcomes data headers i l fl)))
    <= match l with
       | [] => 0
       | o :: _ => len data - o
       end.
Proof.
  intros Hsorted Hinside.
  induction l as [|o rest IH]; intros pre i fl Hsplit Hfl; [cbn; lia|].
  cbn [outcomes].
  pose proof (payload_span_read_from_field data o
                (find_next_offset headers o) fl Hfl) as Hfl'.
  pose proof (payload_span_bounds data o (find_next_offset headers o) fl)
    as Hbounds.
  destruct (payload_span data o (find_next_offset headers o) fl)
    as [sp fl'] eqn:Hsp.
  cbn [map list_sum fst snd] in *.
  specialize (IH (pre ++ [o]) (S i) fl').
  rewrite <- app_assoc in IH. specialize (IH Hsplit Hfl').
  assert (Ho : 0 <= o /\ o + 4 <= len data).
  { apply Hinside. rewrite Hsplit. apply in_or_app. right. now left. }
  assert (Hnext : find_next_offset headers o = hd_error rest).
  { rewrite Hsplit. apply find_next_offset_in_sorted. now rewrite <- Hsplit. }
  assert (Hlater : forall o', hd_error rest = Some o' ->
                               o < o' /\ o' + 4 <= len data).
  { intros o' Ho'. destruct rest as [|o'' rest']; [discriminate|].
    injection Ho' as ->. split.
    - rewrite Hsplit in Hsorted.
      now apply StronglySorted_adjacent in Hsorted.
    - apply Hinside. rewrite Hsplit. apply in_or_app. right. right.
      now left. }
  rewrite list_sum_cons, Nat2Z.inj_add.
  unfold payload_size at 1. cbn [outcome_span].
  destruct sp as [e | [start stop]].
  - destruct rest as [|o' rest']; [lia|].
    destruct (Hlater o' eq_refl). lia.
  - destruct (Hbounds start stop Hfl eq_refl) as [Hstart Hstop].
    rewrite Hnext in Hstop.
    change (Z.of_nat (List.length (slice data start stop)))
      with (len (slice data start stop)).
    destruct rest as [|o' rest']; cbn [hd_error] in Hstop.
    + rewrite len_slice by lia. lia.
    + subst stop. destruct (Hlater o' eq_refl).
      rewrite len_slice by lia. lia.
Qed.

(** X9.  The payloads of one run together are never longer than the
    buffer: the repaired archive holds no more payload bytes than the
    input has bytes. *)
Theorem recovered_payloads_fit_in_the_buffer
    {C : Collaborators} (data : bytes) :
  (list_sum (map (fun pair => List.length (snd pair)) (recovered_pairs data))
   <= List.length data)%nat.
Proof.
  destruct (local_headers_spec data) as [Hsorted _].
  destruct (scan_loop_inside_and_apart data LOCAL_FILE_HEADER
              self_avoiding_LOCAL_FILE_HEADER) as (Hinside & _ & _).
  change (scan_loop data LOCAL_FILE_HEADER [] 0)
    with (local_headers (find_file_signatures data)) in Hinside.
  unfold recovered_pairs. rewrite pairs_size. unfold run_outcomes.
  pose proof (outcomes_size data _ Hsorted Hinside
                (local_headers (find_file_signatures data)) [] 0%nat None
                eq_refl I) as Hsize.
  destruct (local_headers (find_file_signatures data)) as [|o rest] eqn:Hh.
  - cbn in *. lia.
  - assert (0 <= o) by (apply Hinside; now left).
    unfold len in Hsize. lia.
Qed.

(** X10.  Every pair of a run carries a name that is not empty and that
    is either the text extracted from the header of its entry or the
    synthesized name of the entry's index. *)
Theorem recovered_names_are_never_empty
    {C : Collaborators} (data : bytes) (name : text) (payload : bytes) :
  In (name, payload) (recovered_pairs data) ->
  name <> []
  /\ exists i offset,
      nth_error (local_headers (find_file_signatures data)) i = Some offset
      /\ (name = recovered_name i
          \/ extract_filename_from_header data offset = Some name).
Proof.
  unfold recovered_pairs. intros Hin. apply in_flat_map in Hin as (o & Ho & Hpair).
  apply In_nth_error in Ho as [k Hk].
  destruct (outcomes_nth_error data _ _ 0%nat None k o I Hk)
    as (fl & _ & Hoff & Hname & _).
  destruct (outcome_span o) as [e | [start stop]]; [contradiction|].
  destruct Hpair as [[= <- _] | []].
  rewrite Hname. cbn [Nat.add].
  destruct (extract_filename_from_header data (outcome_offset o))
    as [[|c extracted]|] eqn:Hextract; cbn [resolve_filename].
  - split; [discriminate|]. exists k, (outcome_offset o). auto.
  - split; [discriminate|]. exists k, (outcome_offset o). auto.
  - split; [discriminate|]. exists k, (outcome_offset o). auto.
Qed.

Lemma recovered_names_are_never_empty_witness :
  In (text_of_string "ab", ascii_bytes "xyz")
     (recovered_pairs (C := recording) two_entry_buffer)
  /\ text_of_string "ab" <> [].
Proof.
  assert (H : In (text_of_string "ab", ascii_bytes "xyz")
                 (recovered_pairs (C := recording) two_entry_buffer))
    by (vm_compute; auto).
  split; [exact H|].
  exact (proj1 (recovered_names_are_never_empty (C := recording)
                  two_entry_buffer _ _ H)).
Defined.

(** ** [extract_files] *)

Section CommandLineFacts.

Context {P : Platform}.

Lemma extract_each_reports zip_path output_dir infolist :
  forall m,
  exists d notes,
    extract_each zip_path output_dir infolist m
    = (inr tt, {| on_disk := d; printed := printed m ++ notes |})
    /\ members_reported zip_path output_dir infolist (on_disk m) notes d.
Proof.
  induction infolist as [|file_info rest IH]; intros m.
  - exists (on_disk m), []. split; [|constructor].
    destruct m. cbn. now rewrite app_nil_r.
  - cbn [extract_each]. unfold and_then at 1. unfold library, say.
    destruct (extract_member zip_path file_info output_dir (on_disk m))
      as [[e|] d1] eqn:Hcall; cbn [on_disk printed].
    + destruct (IH {| on_disk := d1;
                      printed := printed m
                                 ++ [FailedToExtract
                                       (member_filename file_info) e] |})
        as (d & notes & -> & Hall).
      exists d, (FailedToExtract (member_filename file_info) e :: notes).
      cbn [printed on_disk] in *. rewrite <- app_assoc.
      split; [reflexivity|].
      now apply (reported_failed _ _ _ _ _ _ d1).
    + destruct (IH {| on_disk := d1;
                      printed := printed m
                                 ++ [Extracted (member_filename file_info)] |})
        as (d & notes & -> & Hall).
      exists d, (Extracted (member_filename file_info) :: notes).
      cbn [printed on_disk] in *. rewrite <- app_assoc.
      split; [reflexivity|].
      now apply (reported_extracted _ _ _ _ _ d1).
Qed.

(** X11.  [extract_files] returns [True] exactly when the archive can be
    opened, whatever happens to its members: it then prints one line per
    member, in the order of the archive, which says that the member was
    extracted when its [z.extract] returned, and that it failed, with the
    exception, when its [z.extract] raised; each call finds the disk as
    the call before left it.  When the archive cannot be opened it prints
    the reason and returns [False].  Only a failure to create the output
    directory, which is attempted only when the directory is missing,
    escapes as an exception, before the archive is touched. *)
Theorem extract_files_verdict
    (zip_path : string) (output_dir : option string) (m : machine) :
  let dir := match output_dir with
             | None => (stem zip_path ++ "_extracted")%string
             | Some d => d
             end in
  let made := if path_exists dir (on_disk m) then (None, on_disk m)
              else makedirs dir (on_disk m) in
  match fst made with
  | Some e =>
      extract_files zip_path output_dir m
      = (inl e, {| on_disk := snd made; printed := printed m |})
  | None =>
      match open_zip zip_path (snd made) with
      | (inr infolist, opened) =>
          exists d notes,
            extract_files zip_path output_dir m
            = (inr true, {| on_disk := d; printed := printed m ++ notes |})
            /\ members_reported zip_path dir infolist opened notes d
      | (inl e, d) =>
          extract_files zip_path output_dir m
          = (inr false,
             {| on_disk := d; printed := printed m ++ [ErrorOpeningZip e] |})
      end
  end.
Proof.
  cbv zeta. unfold extract_files.
  set (dir := match output_dir with
              | None => (stem zip_path ++ "_extracted")%string
              | Some d => d
              end).
  unfold and_then, done, library, say.
  destruct (path_exists dir (on_disk m)) eqn:Hexists; cbn [fst snd].
  - destruct (open_zip zip_path (on_disk m)) as [[e | infolist] d] eqn:Hopen;
      cbn [on_disk printed]; [reflexivity|].
    destruct (extract_each_reports zip_path dir infolist
                {| on_disk := d; printed := printed m |})
      as (d' & notes & -> & Hall).
    exists d', notes. split; [reflexivity | assumption].
  - destruct (makedirs dir (on_disk m)) as [[e|] d0]; cbn [fst snd on_disk];
      [reflexivity|].
    destruct (open_zip zip_path d0) as [[e | infolist] d] eqn:Hopen;
      cbn [on_disk printed]; [reflexivity|].
    destruct (extract_each_reports zip_path dir infolist
                {| on_disk := d; printed := printed m |})
      as (d' & notes & -> & Hall).
    exists d', notes. split; [reflexivity | assumption].
Qed.

End CommandLineFacts.

(** On a platform with a member whose extraction raises: the
    failure is reported with its exception, and the verdict is still
    [True]. *)
Example failed_member_is_reported :
  extract_files (P := refusing) "x.zip" (Some "out"%string)
    (@Build_machine refusing ["x.zip"; "out"]%string [])
  = (inr true,
     @Build_machine refusing ["out/a.txt"; "x.zip"; "out"]%string
       [@Extracted refusing "a.txt";
        @FailedToExtract refusing "b.txt" "read-only"%string]).
Proof. vm_compute. reflexivity. Qed.


(** ** [main] *)

Section MainFacts.

Context {P : Platform}.

(** Case analysis on whatever the goal branches on next. *)
Ltac branch :=
  match goal with
  | |- context [match ?x with _ => _ end] =>
      lazymatch x with
      | context [match _ with _ => _ end] => fail
      | _ => destruct x eqn:?
      end
  end.

Ltac branches := repeat (cbn beta iota delta [fst snd negb andb]; branch).

(** The status that lines 174-189 return: 0 when [success] was already
    [True], and otherwise 0 only after an extraction that returned
    [True]. *)
Lemma repair_stage_status extract repair (args : arguments) success m z :
  fst (repair_stage extract repair args success m) = inr z ->
  (z = 0 \/ z = 1)
  /\ (success = true -> z = 0)
  /\ (z = 0 ->
      success = true
      \/ exists p d m', fst (extract p d m') = inr true).
Proof.
  unfold repair_stage, and_then, say, done, or_else.
  destruct success; branches; intros Hz; try discriminate;
    injection Hz as <-;
    (split; [lia|]);
    (split; [congruence|]);
    intros Hzero; try discriminate; try (left; reflexivity);
    right;
    match goal with
    | H : extract ?p ?d ?m' = (inr true, _) |- _ =>
        exists p, d, m'; now rewrite H
    end.
Qed.

(** Lines 174-189 do not call [extract_files] in repair-only mode. *)
Lemma repair_stage_repair_only extract extract' repair (args : arguments)
    success m :
  repair_only args = true ->
  repair_stage extract repair args success m
  = repair_stage extract' repair args success m.
Proof.
  intros Hflag. unfold repair_stage, and_then, say, done, or_else.
  rewrite Hflag.
  repeat (cbn beta iota delta [fst snd negb andb];
          match goal with
          | |- context [match ?x with _ => _ end] =>
              lazymatch x with
              | context [extract] => fail
              | context [extract'] => fail
              | context [match _ with _ => _ end] => fail
              | _ => destruct x eqn:?
              end
          end);
    try reflexivity;
    match goal with
    | H : _ && false = true |- _ => rewrite andb_false_r in H; discriminate H
    end.
Qed.

(** X12.  [main] returns no status but 0 and 1.  It returns 0 only when
    the file exists, [--repair-only] is not given, and one of its two
    calls of [extract_files] returned [True]: the direct one, on the given
    archive, or else, without [--extract-only], the one on the repaired
    archive, which is made after the direct extraction returned [False]
    and the repair returned [True].  A repair that succeeds is not
    enough. *)
Theorem main_succeeds_only_after_an_extraction
    extract repair (args : arguments) (m : machine) (status : Z) :
  fst (main extract repair args m) = inr status ->
  (status = 0 \/ status = 1)
  /\ (status = 0 ->
      path_exists (zip_file args) (on_disk m) = true
      /\ repair_only args = false
      /\ (fst (extract (zip_file args) (output args)
                 {| on_disk := on_disk m;
                    printed := printed m
                               ++ [AttemptingToExtract (zip_file args)] |})
          = inr true
          \/ exists m1 fixed_zip m2,
               extract (zip_file args) (output args)
                 {| on_disk := on_disk m;
                    printed := printed m
                               ++ [AttemptingToExtract (zip_file args)] |}
               = (inr false, m1)
               /\ extract_only args = false
               /\ match fixed args with
                  | None | Some EmptyString =>
                      with_suffix_fixed (zip_file args) = inr fixed_zip
                  | Some path => fixed_zip = path
                  end
               /\ repair (zip_file args) fixed_zip
                    {| on_disk := on_disk m1;
                       printed := (printed m1 ++ [DirectExtractionFailed])
                                  ++ [AttemptingToRepair (zip_file args)] |}
                  = (inr true, m2)
               /\ fst (extract fixed_zip
                         (Some match output args with
                               | None | Some EmptyString =>
                                   (stem (zip_file args) ++ "_extracted")%string
                               | Some dir => dir
                               end)
                         {| on_disk := on_disk m2;
                            printed := printed m2
                                       ++ [AttemptingToExtractRepaired] |})
                  = inr true)).
Proof.
  unfold main, repair_stage, and_then, say, or_else, done.
  destruct (path_exists (zip_file args) (on_disk m)) eqn:Hexists;
    destruct (repair_only args) eqn:Hrepair_only;
    destruct (extract_only args) eqn:Hextract_only;
    branches; intros Hz; try discriminate;
    injection Hz as <-; (split; [lia|]);
    intros Hzero; try discriminate;
    repeat match goal with
           | H : _ && false = _ |- _ => rewrite andb_false_r in H
           | H : _ && true = _ |- _ => rewrite andb_true_r in H
           end;
    try discriminate; subst;
    (split; [reflexivity|]); (split; [reflexivity|]);
    first
      [ left; reflexivity
      | right; eexists _, _, _;
        (split; [reflexivity|]); (split; [reflexivity|]);
        (split; [first [reflexivity | eassumption]|]);
        (split; [eassumption|]);
        match goal with
        | H : _ = (inr true, _) |- fst _ = _ => now rewrite H
        end ].
Qed.

(** X13.  With [--repair-only], [main] never calls [extract_files], and
    its status is never 0, whatever the repair returns: the status tells
    whether an extraction succeeded. *)
Theorem repair_only_never_extracts
    extract repair (args : arguments) (m : machine) :
  repair_only args = true ->
  (forall extract', main extract repair args m = main extract' repair args m)
  /\ fst (main extract repair args m) <> inr 0.
Proof.
  intros Hflag.
  assert (Hsame : forall extract',
             main extract repair args m = main extract' repair args m).
  { intros extract'. unfold main. rewrite Hflag. cbn [negb].
    destruct (path_exists _ _); cbn [negb]; [|reflexivity].
    destruct (extract_only args && true); [reflexivity|].
    now apply repair_stage_repair_only. }
  split; [exact Hsame|].
  rewrite (Hsame (fun _ _ m' => (inr false, m'))). intros Hz.
  unfold main in Hz. rewrite Hflag in Hz. cbn [negb] in Hz.
  destruct (path_exists _ _); cbn [negb] in Hz; [|discriminate].
  destruct (extract_only args && true); [discriminate|].
  destruct (repair_stage_status _ _ _ _ _ _ Hz) as (_ & _ & Hzero).
  destruct (Hzero eq_refl) as [| (p & d & m' & Hex)]; discriminate.
Qed.

(** X14.  With [--extract-only], [main] never calls [repair_zip], and its
    status is 0 exactly when the one extraction it attempts returns
    [True]. *)
Theorem extract_only_never_repairs
    extract repair (args : arguments) (m : machine) :
  extract_only args = true ->
  (forall repair', main extract repair args m = main extract repair' args m)
  /\ (fst (main extract repair args m) = inr 0
      <-> path_exists (zip_file args) (on_disk m) = true
          /\ repair_only args = false
          /\ fst (extract (zip_file args) (output args)
                    {| on_disk := on_disk m;
                       printed := printed m
                                  ++ [AttemptingToExtract (zip_file args)] |})
             = inr true).
Proof.
  intros Hflag. unfold main, repair_stage, and_then, say, done.
  rewrite Hflag. cbn [negb andb].
  destruct (path_exists (zip_file args) (on_disk m)); cbn [negb].
  - destruct (repair_only args); cbn [negb].
    + split; [reflexivity|]. cbn. split; [discriminate|].
      intros (_ & Hno & _). discriminate.
    + destruct (extract (zip_file args) (output args) _)
        as [[e | [|]] m1]; cbn;
        (split; [reflexivity|]);
        (split; [intros; try discriminate; auto
                | intros (_ & _ & H); try discriminate; reflexivity]).
  - split; [reflexivity|]. cbn. split; [discriminate|].
    intros (Hno & _). discriminate.
Qed.

(** X15.  Once the direct extraction has returned [True], the status of
    [main] is 0 whenever [main] returns at all, whatever the repair that
    is still attempted without [--extract-only] and the second extraction
    do. *)
Theorem direct_extraction_settles_the_status
    extract repair (args : arguments) (m : machine) (status : Z) :
  path_exists (zip_file args) (on_disk m) = true ->
  repair_only args = false ->
  fst (extract (zip_file args) (output args)
         {| on_disk := on_disk m;
            printed := printed m ++ [AttemptingToExtract (zip_file args)] |})
  = inr true ->
  fst (main extract repair args m) = inr status ->
  status = 0.
Proof.
  intros Hexists Hflag Hextract. unfold main.
  rewrite Hexists, Hflag, andb_false_r. cbn [negb].
  unfold and_then at 1. unfold say at 1. cbn [fst snd].
  unfold and_then at 1.
  destruct (extract (zip_file args) (output args) _) as [r m1].
  cbn [fst] in Hextract. subst r.
  unfold and_then at 1. unfold say at 1. cbn [fst snd].
  destruct (extract_only args); [now intros [= <-]|].
  intros Hz. destruct (repair_stage_status _ _ _ _ _ _ Hz) as (_ & Hs & _).
  now apply Hs.
Qed.

End MainFacts.

Lemma main_succeeds_only_after_an_extraction_witness :
  fst (main (P := toy) (fun p _ m => (inr (String.eqb p "x.zip.fixed.zip"), m))
         toy_repair
         {| zip_file := "x.zip"; output := None; fixed := None;
            extract_only := false; repair_only := false |}
         (toy_machine ["x.zip"%string]))
  = inr 0
  /\ path_exists (Platform := toy) "x.zip" ["x.zip"%string] = true.
Proof.
  assert (H : fst (main (P := toy)
                     (fun p _ m => (inr (String.eqb p "x.zip.fixed.zip"), m))
                     toy_repair
                     {| zip_file := "x.zip"; output := None; fixed := None;
                        extract_only := false; repair_only := false |}
                     (toy_machine ["x.zip"%string]))
              = inr 0) by (vm_compute; reflexivity).
  split; [exact H|].
  exact (proj1 (proj2 (main_succeeds_only_after_an_extraction (P := toy)
                         _ _ _ _ _ H) eq_refl)).
Defined.

Lemma repair_only_never_extracts_witness :
  repair_only {| zip_file := "x.zip"; output := None; fixed := None;
                 extract_only := false; repair_only := true |} = true
  /\ main (P := toy) extract_files toy_repair
       {| zip_file := "x.zip"; output := None; fixed := None;
          extract_only := false; repair_only := true |}
       (toy_machine ["x.zip"%string])
     = (inr 1,
        @Build_machine toy ["x.zip.fixed.zip"; "x.zip"]%string
          [AttemptingToRepair "x.zip"])
  /\ fst (main (P := toy) extract_files toy_repair
            {| zip_file := "x.zip"; output := None; fixed := None;
               extract_only := false; repair_only := true |}
            (toy_machine ["x.zip"%string]))
     <> inr 0.
Proof.
  split; [reflexivity|]. split; [vm_compute; reflexivity|].
  apply (repair_only_never_extracts (P := toy)). reflexivity.
Defined.

Lemma extract_only_never_repairs_witness :
  extract_only {| zip_file := "x.zip"; output := None; fixed := None;
                  extract_only := true; repair_only := false |} = true
  /\ main (P := toy) extract_files toy_repair
       {| zip_file := "x.zip"; output := None; fixed := None;
          extract_only := true; repair_only := false |}
       (toy_machine ["x.zip"%string])
     = main (P := toy) extract_files (fun _ _ m => (inr false, m))
         {| zip_file := "x.zip"; output := None; fixed := None;
            extract_only := true; repair_only := false |}
         (toy_machine ["x.zip"%string]).
Proof.
  split; [reflexivity|].
  apply (proj1 (extract_only_never_repairs (P := toy) extract_files
                  toy_repair
                  {| zip_file := "x.zip"; output := None; fixed := None;
                     extract_only := true; repair_only := false |}
                  (toy_machine ["x.zip"%string]) eq_refl)).
Defined.

Lemma direct_extraction_settles_the_status_witness :
  path_exists (Platform := toy) "x.zip" ["x.zip"%string] = true
  /\ exists status,
       fst (main (P := toy) extract_files (fun _ _ m => (inr false, m))
              {| zip_file := "x.zip"; output := None; fixed := None;
                 extract_only := false; repair_only := false |}
              (toy_machine ["x.zip"%string]))
       = inr status
       /\ status = 0.
Proof.
  split; [reflexivity|]. exists 0.
  assert (H : fst (main (P := toy) extract_files (fun _ _ m => (inr false, m))
                     {| zip_file := "x.zip"; output := None; fixed := None;
                        extract_only := false; repair_only := false |}
                     (toy_machine ["x.zip"%string]))
              = inr 0) by (vm_compute; reflexivity).
  split; [exact H|].
  exact (direct_extraction_settles_the_status (P := toy) extract_files
           (fun _ _ m => (inr false, m))
           {| zip_file := "x.zip"; output := None; fixed := None;
              extract_only := false; repair_only := false |}
           (toy_machine ["x.zip"%string]) 0
           eq_refl eq_refl eq_refl H).
Defined.

